(** * Order processing pipeline: intake, inventory settlement, notification

    A shallow embedding of the three Lambda handlers of the repository
    (lambdas/order-service, lambdas/inventory-worker, lambdas/notifier-worker)
    as programs over the calls they make to DynamoDB, SNS, SES, the
    completion API, the clock and the UUID generator.

    Conventions of the model.
    - Numbers (quantity, totalAmount, stock) are integers [Z].
    - A string that the code hands to [JSON.parse] is represented by what it
      parses to: [NotJson raw] makes [JSON.parse] throw a SyntaxError,
      [IsJson v] makes it return [v].  The request body and the SNS message
      are typed by the interface the code declares for them; the content of a
      completion, which a language model writes, is any JavaScript value.
    - A DynamoDB item is a finite map from attribute names to attribute
      values; a table is a finite map from the value of its key to the item.
    - Every SDK call may fail for reasons of its own (network, throttling):
      the world carries one entry per call saying whether that call throws.
    - [console.log], [console.warn] and [console.error] are not modelled. *)

From Stdlib Require Import ZArith Lia.
From stdpp Require Import gmap strings list fin_maps pretty.

Local Open Scope string_scope.
Local Open Scope Z_scope.

(** ** Values shared by the three handlers *)

(** A thrown JavaScript error, identified by its [name] property. *)
Record Error := mkError { err_name : string }.

Definition SyntaxError : Error := mkError "SyntaxError".
Definition TypeError : Error := mkError "TypeError".
Definition ConditionalCheckFailedException : Error :=
  mkError "ConditionalCheckFailedException".
Definition ValidationException : Error := mkError "ValidationException".
Definition TimeoutError : Error := mkError "AxiosError".

(** A string given to [JSON.parse], seen through its parse. *)
Inductive Json (T : Type) : Type :=
| NotJson (raw : string)
| IsJson (v : T).
Arguments NotJson {T} raw.
Arguments IsJson {T} v.

(** interface OrderRequest (order-service); a field missing from the JSON
    body is [None]. *)
Record OrderRequest := mkOrderRequest {
  req_customerId : option string;
  req_productId : option string;
  req_quantity : option Z;
  req_totalAmount : option Z
}.

(** interface OrderEvent (both workers): the SNS message body. *)
Record OrderEvent := mkOrderEvent {
  orderId : string;
  customerId : string;
  productId : string;
  quantity : Z;
  totalAmount : Z;
  timestamp : string
}.

(** The SNS envelope that SQS delivers: [snsMessage.Message] is a string. *)
Record SnsEnvelope := mkSnsEnvelope { Message : Json OrderEvent }.

(** One element of [event.Records]. *)
Record SQSRecord := mkSQSRecord { body : Json SnsEnvelope }.

#[local] Unset Elimination Schemes.

(** A JavaScript value: what [JSON.parse] can return, and [undefined], the
    value of a property that an object does not have.  An object is the list
    of its properties; where a name occurs twice the first pair counts. *)
Inductive JsValue :=
| JsUndefined
| JsNull
| JsBoolean (b : bool)
| JsNumber (n : Z)
| JsString (s : string)
| JsArray (items : list JsValue)
| JsObject (fields : list (string * JsValue)).

#[local] Set Elimination Schemes.

Fixpoint own_property (fields : list (string * JsValue)) (name : string) : JsValue :=
  match fields with
  | [] => JsUndefined
  | (k, v) :: rest => if String.eqb k name then v else own_property rest name
  end.

(** The truthiness of a value, as [if (v)] tests it. *)
Definition truthy (v : JsValue) : bool :=
  match v with
  | JsUndefined | JsNull => false
  | JsBoolean b => b
  | JsNumber n => negb (n =? 0)
  | JsString s => negb (String.eqb s "")
  | JsArray _ | JsObject _ => true
  end.

(** [response.data.choices[0].message.content]; [None] when the path does
    not exist in the response. *)
Record AxiosResponse (T : Type) := mkAxiosResponse { content : option (Json T) }.
Arguments mkAxiosResponse {T} content.
Arguments content {T} _.

(** ** The conditional store (DynamoDB) *)

Inductive AttributeValue :=
| AttrS (s : string)
| AttrN (n : Z).

Global Instance AttributeValue_eq_dec : EqDecision AttributeValue.
Proof. solve_decision. Defined.

Abbreviation Item := (gmap string AttributeValue).
Abbreviation TableData := (gmap string (gmap string AttributeValue)).

Inductive Table := ORDERS_TABLE | INVENTORY_TABLE.

(** The hash key of each table. *)
Definition key_attr (t : Table) : string :=
  match t with
  | ORDERS_TABLE => "orderId"
  | INVENTORY_TABLE => "productId"
  end.

(** The condition expressions the handlers use. *)
Inductive Condition :=
| attribute_not_exists (a : string)          (* 'attribute_not_exists(a)' *)
| attr_ge (a : string) (v : Z).              (* 'a >= :v' *)

(** The right-hand sides of the SET actions the handlers use. *)
Inductive Operand :=
| OVal (v : AttributeValue)                  (* ':v' *)
| OMinus (a : string) (v : Z).               (* 'a - :v' *)

Abbreviation SetAction := (string * Operand)%type.

(** A condition is evaluated on the item currently stored under the key;
    a comparison on an attribute that is missing, or is not a number, is
    false. *)
Definition eval_condition (c : Condition) (cur : option Item) : bool :=
  match c with
  | attribute_not_exists a =>
      match cur with
      | Some it => bool_decide (it !! a = None)
      | None => true
      end
  | attr_ge a v =>
      match cur ≫= (λ it : Item, it !! a) with
      | Some (AttrN n) => v <=? n
      | _ => false
      end
  end.

Definition eval_condition_opt (c : option Condition) (cur : option Item) : bool :=
  match c with
  | Some c => eval_condition c cur
  | None => true
  end.

(** Operands are evaluated on the item as it was before the update. *)
Definition eval_operand (o : Operand) (old : Item) : option AttributeValue :=
  match o with
  | OVal v => Some v
  | OMinus a v =>
      match old !! a with
      | Some (AttrN n) => Some (AttrN (n - v))
      | _ => None
      end
  end.

Fixpoint apply_sets (acts : list SetAction) (old acc : Item) : option Item :=
  match acts with
  | [] => Some acc
  | (a, o) :: rest =>
      match eval_operand o old with
      | Some v => apply_sets rest old (<[a := v]> acc)
      | None => None
      end
  end.

(** PutItem: the key is read from the item; the whole item is replaced. *)
Definition put_item (t : Table) (item : Item) (cond : option Condition)
    (tbl : TableData) : Error + TableData :=
  match item !! key_attr t with
  | Some (AttrS k) =>
      if eval_condition_opt cond (tbl !! k)
      then inr (<[k := item]> tbl)
      else inl ConditionalCheckFailedException
  | _ => inl ValidationException
  end.

(** UpdateItem: an item that does not exist is created from the key alone,
    the condition being evaluated first on what is stored. *)
Definition update_item (t : Table) (k : string) (acts : list SetAction)
    (cond : option Condition) (tbl : TableData) : Error + TableData :=
  if eval_condition_opt cond (tbl !! k)
  then
    let old := default {[ key_attr t := AttrS k ]} (tbl !! k) in
    match apply_sets acts old old with
    | Some new => inr (<[k := new]> tbl)
    | None => inl ValidationException
    end
  else inl ConditionalCheckFailedException.

(** ** The world the handlers run in *)

(** A mail as it is handed to SES: [Subject.Data] and [Body.Text.Data]. *)
Record Email := mkEmail { mail_subject : JsValue; mail_body : JsValue }.

Record Published := mkPublished { pub_message : OrderEvent; pub_eventType : string }.

Record World := mkWorld {
  orders : TableData;
  inventory : TableData;
  topic : list Published;                 (* messages published to SNS *)
  outbox : list Email;                    (* mails handed to SES *)
  faults : list (option Error);           (* per SDK call: does it throw? *)
  fraud_api : list (Error + AxiosResponse JsValue);
  email_api : list (Error + AxiosResponse JsValue);
  uuids : list string;                    (* results of randomUUID() *)
  clock : list string                     (* results of new Date().toISOString() *)
}.

Definition table (t : Table) (w : World) : TableData :=
  match t with
  | ORDERS_TABLE => orders w
  | INVENTORY_TABLE => inventory w
  end.

Definition set_table (t : Table) (d : TableData) (w : World) : World :=
  match t with
  | ORDERS_TABLE =>
      mkWorld d (inventory w) (topic w) (outbox w) (faults w)
              (fraud_api w) (email_api w) (uuids w) (clock w)
  | INVENTORY_TABLE =>
      mkWorld (orders w) d (topic w) (outbox w) (faults w)
              (fraud_api w) (email_api w) (uuids w) (clock w)
  end.

(** The calls a handler makes to the outside. *)
Inductive Call : Type -> Type :=
| GetItemCommand (t : Table) (k : string) : Call (option Item)
| PutItemCommand (t : Table) (item : Item) (cond : option Condition) : Call unit
| UpdateItemCommand (t : Table) (k : string) (acts : list SetAction)
    (cond : option Condition) : Call unit
| PublishCommand (msg : OrderEvent) (eventType : string) : Call unit
| SendEmailCommand (subj text : JsValue) : Call unit
| fraud_completion (order : OrderRequest) : Call (AxiosResponse JsValue)
| email_completion (order : OrderEvent) : Call (AxiosResponse JsValue)
| randomUUID : Call string
| Date_toISOString : Call string.

(** The world once the entry of [faults] for the current SDK call is used. *)
Definition tick (w : World) : World :=
  mkWorld (orders w) (inventory w) (topic w) (outbox w) (tail (faults w))
          (fraud_api w) (email_api w) (uuids w) (clock w).

(** What an SDK call does when it does not fail for a reason of its own.
    (The last four calls are not SDK calls: [perform] answers them itself,
    and their cases here are never reached.) *)
Definition sdk_effect {X} (c : Call X) (w : World) : (Error + X) * World :=
  match c in Call X return (Error + X) * World with
  | GetItemCommand t k => (inr (table t w !! k), w)
  | PutItemCommand t item cond =>
      match put_item t item cond (table t w) with
      | inr d => (inr tt, set_table t d w)
      | inl e => (inl e, w)
      end
  | UpdateItemCommand t k acts cond =>
      match update_item t k acts cond (table t w) with
      | inr d => (inr tt, set_table t d w)
      | inl e => (inl e, w)
      end
  | PublishCommand msg ty =>
      (inr tt,
       mkWorld (orders w) (inventory w) (topic w ++ [mkPublished msg ty]) (outbox w)
               (faults w) (fraud_api w) (email_api w) (uuids w) (clock w))
  | SendEmailCommand subj text =>
      (inr tt,
       mkWorld (orders w) (inventory w) (topic w) (outbox w ++ [mkEmail subj text])
               (faults w) (fraud_api w) (email_api w) (uuids w) (clock w))
  | fraud_completion _ => (inl TimeoutError, w)
  | email_completion _ => (inl TimeoutError, w)
  | randomUUID => (inr "", w)
  | Date_toISOString => (inr "", w)
  end.

(** One call against the world.  An SDK call uses one entry of [faults]
    (none left: no fault); the completion API, the UUID generator and the
    clock answer from their own streams. *)
Definition perform {X} (c : Call X) (w : World) : (Error + X) * World :=
  match c in Call X return (Error + X) * World with
  | fraud_completion _ =>
      (default (inl TimeoutError) (head (fraud_api w)),
       mkWorld (orders w) (inventory w) (topic w) (outbox w) (faults w)
               (tail (fraud_api w)) (email_api w) (uuids w) (clock w))
  | email_completion _ =>
      (default (inl TimeoutError) (head (email_api w)),
       mkWorld (orders w) (inventory w) (topic w) (outbox w) (faults w)
               (fraud_api w) (tail (email_api w)) (uuids w) (clock w))
  | randomUUID =>
      (inr (default "" (head (uuids w))),
       mkWorld (orders w) (inventory w) (topic w) (outbox w) (faults w)
               (fraud_api w) (email_api w) (tail (uuids w)) (clock w))
  | Date_toISOString =>
      (inr (default "" (head (clock w))),
       mkWorld (orders w) (inventory w) (topic w) (outbox w) (faults w)
               (fraud_api w) (email_api w) (uuids w) (tail (clock w)))
  | c =>
      match head (faults w) with
      | Some (Some e) => (inl e, tick w)
      | _ => sdk_effect c (tick w)
      end
  end.

(** ** Programs: sequences of calls with exceptions *)

Inductive Prog (A : Type) : Type :=
| Ret (a : A)
| Throw (e : Error)
| Vis {X : Type} (c : Call X) (k : Error + X -> Prog A).
Arguments Ret {A} a.
Arguments Throw {A} e.
Arguments Vis {A X} c k.

Fixpoint bind {A B} (p : Prog A) (f : A -> Prog B) : Prog B :=
  match p with
  | Ret a => f a
  | Throw e => Throw e
  | Vis c k => Vis c (λ r, bind (k r) f)
  end.

(** try { p } catch (err) { h err } *)
Fixpoint try_catch {A} (p : Prog A) (h : Error -> Prog A) : Prog A :=
  match p with
  | Ret a => Ret a
  | Throw e => h e
  | Vis c k => Vis c (λ r, try_catch (k r) h)
  end.

(** await a call: a failed call throws. *)
Definition call {X} (c : Call X) : Prog X :=
  Vis c (λ r, match r with inl e => Throw e | inr x => Ret x end).

Definition JSON_parse {T} (s : Json T) : Prog T :=
  match s with
  | NotJson _ => Throw SyntaxError
  | IsJson v => Ret v
  end.

(** [v.name], for the property names the handlers read (isFraudulent,
    reason, subject, body), none of which a primitive value or an array has:
    reading a property of [null] or [undefined] throws a TypeError, a
    property that is missing is [undefined]. *)
Definition member (v : JsValue) (name : string) : Prog JsValue :=
  match v with
  | JsUndefined | JsNull => Throw TypeError
  | JsObject fields => Ret (own_property fields name)
  | _ => Ret JsUndefined
  end.

Notation "'let!' x := p 'in' q" := (bind p (λ x, q))
  (at level 10, x name, p at level 100, q at level 200,
   format "'[v' 'let!'  x  :=  p  'in' '/' q ']'").
Notation "'do!' p 'in' q" := (bind p (λ _, q))
  (at level 10, p at level 100, q at level 200,
   format "'[v' 'do!'  p  'in' '/' q ']'").

Inductive Outcome (A : Type) : Type :=
| Returned (a : A)
| Thrown (e : Error).
Arguments Returned {A} a.
Arguments Thrown {A} e.

(** A handler invocation running alone. *)
Fixpoint run {A} (p : Prog A) (w : World) : Outcome A * World :=
  match p with
  | Ret a => (Returned a, w)
  | Throw e => (Thrown e, w)
  | Vis c k => let '(r, w') := perform c w in run (k r) w'
  end.

(** Several invocations running concurrently: each call is atomic, the
    schedule says which invocation makes the next call. *)
Definition step_thread (p : Prog unit) (w : World) : Prog unit * World :=
  match p with
  | Vis c k => let '(r, w') := perform c w in (k r, w')
  | _ => (p, w)
  end.

Definition sched_step (st : list (Prog unit) * World) (i : nat)
    : list (Prog unit) * World :=
  match st.1 !! i with
  | Some p => let '(p', w') := step_thread p st.2 in (<[i := p']> st.1, w')
  | None => st
  end.

Definition run_sched (sched : list nat) (st : list (Prog unit) * World)
    : list (Prog unit) * World :=
  foldl sched_step st sched.

Definition finished (p : Prog unit) : bool :=
  match p with
  | Vis _ _ => false
  | _ => true
  end.

(** ** lambdas/inventory-worker/index.ts *)

Module InventoryWorker.

(** parseInt(currentStock.Item?.stock?.N || '0') *)
Definition parseInt_stock (currentStock : option Item) : Z :=
  match currentStock ≫= (λ it : Item, it !! "stock") with
  | Some (AttrN n) => n
  | _ => 0
  end.

Definition updateOrderStatus (orderId status : string) : Prog unit :=
  let! ts := call Date_toISOString in
  call (UpdateItemCommand ORDERS_TABLE orderId
          [("status", OVal (AttrS status)); ("updatedAt", OVal (AttrS ts))]
          None).

(** The body of the [try] block for one order. *)
Definition settle (order : OrderEvent) : Prog unit :=
  let! currentStock := call (GetItemCommand INVENTORY_TABLE (productId order)) in
  let stock := parseInt_stock currentStock in
  if stock <? quantity order then
    updateOrderStatus (orderId order) "FAILED_INSUFFICIENT_STOCK"
  else
    do! call (UpdateItemCommand INVENTORY_TABLE (productId order)
               [("stock", OMinus "stock" (quantity order))]
               (Some (attr_ge "stock" (quantity order)))) in
    updateOrderStatus (orderId order) "CONFIRMED".

(** The [catch] block. *)
Definition on_error (order : OrderEvent) (err : Error) : Prog unit :=
  if String.eqb (err_name err) "ConditionalCheckFailedException" then
    updateOrderStatus (orderId order) "FAILED_INSUFFICIENT_STOCK"
  else
    Throw err.

Definition process_order (order : OrderEvent) : Prog unit :=
  try_catch (settle order) (on_error order).

(** One iteration of the loop over [event.Records]. *)
Definition process_record (record : SQSRecord) : Prog unit :=
  let! snsMessage := JSON_parse (body record) in
  let! order := JSON_parse (Message snsMessage) in
  process_order order.

Fixpoint handler (Records : list SQSRecord) : Prog unit :=
  match Records with
  | [] => Ret tt
  | record :: rest => do! process_record record in handler rest
  end.

End InventoryWorker.

(** ** lambdas/order-service/index.ts *)

Module OrderService.

Record APIGatewayProxyEvent := mkEvent { event_body : option (Json OrderRequest) }.

(** The object given to [JSON.stringify] for the response body. *)
Inductive ResponseBody :=
| ErrorBody (error : string)
| FlaggedBody (error : string) (reason : JsValue)
| CreatedBody (orderId : string) (status : string) (message : string).

Record APIGatewayProxyResult := mkResult {
  statusCode : Z;
  result_body : ResponseBody
}.

(** [response.data.choices[0].message.content], which throws when the
    path does not exist. *)
Definition message_content {T} (response : AxiosResponse T) : Prog (Json T) :=
  match content response with
  | Some c => Ret c
  | None => Throw TypeError
  end.

(** [JSON.parse(content)] is returned as it is, whatever it is. *)
Definition checkFraud (order : OrderRequest) : Prog JsValue :=
  try_catch
    (let! response := call (fraud_completion order) in
     let! content := message_content response in
     JSON_parse content)
    (λ err, Ret (JsObject [("isFraudulent", JsBoolean false);
                           ("reason", JsString "fraud check unavailable")])).

(** JavaScript truthiness of a field that may be absent. *)
Definition truthy_string (s : option string) : bool :=
  match s with
  | Some s => negb (String.eqb s "")
  | None => false
  end.

Definition truthy_number (n : option Z) : bool :=
  match n with
  | Some n => negb (n =? 0)
  | None => false
  end.

(** event.body || '{}' *)
Definition body_or_empty (b : option (Json OrderRequest)) : Json OrderRequest :=
  match b with
  | None | Some (NotJson "") => IsJson (mkOrderRequest None None None None)
  | Some j => j
  end.

(** The value of a field after validation has found it truthy. *)
Definition str (s : option string) : string := default "" s.
Definition num (n : option Z) : Z := default 0 n.

Definition handler (event : APIGatewayProxyEvent) : Prog APIGatewayProxyResult :=
  try_catch
    (let! body := JSON_parse (body_or_empty (event_body event)) in
     if negb (truthy_string (req_customerId body))
        || negb (truthy_string (req_productId body))
        || negb (truthy_number (req_quantity body))
        || negb (truthy_number (req_totalAmount body))
     then
       Ret (mkResult 400 (ErrorBody "Missing required fields"))
     else
       let! fraudResult := checkFraud body in
       let! isFraudulent := member fraudResult "isFraudulent" in
       if truthy isFraudulent then
         let! reason := member fraudResult "reason" in
         Ret (mkResult 422 (FlaggedBody "Order flagged for review" reason))
       else
         let! orderId := call randomUUID in
         let! timestamp := call Date_toISOString in
         do! call (PutItemCommand ORDERS_TABLE
                     {[ "orderId" := AttrS orderId;
                        "customerId" := AttrS (str (req_customerId body));
                        "productId" := AttrS (str (req_productId body));
                        "quantity" := AttrN (num (req_quantity body));
                        "totalAmount" := AttrN (num (req_totalAmount body));
                        "status" := AttrS "PENDING";
                        "createdAt" := AttrS timestamp ]}
                     (Some (attribute_not_exists "orderId"))) in
         do! call (PublishCommand
                     (mkOrderEvent orderId
                        (str (req_customerId body))
                        (str (req_productId body))
                        (num (req_quantity body))
                        (num (req_totalAmount body))
                        timestamp)
                     "ORDER_CREATED") in
         Ret (mkResult 201
                (CreatedBody orderId "PENDING" "Order created successfully")))
    (λ err, Ret (mkResult 500 (ErrorBody "Internal server error"))).

End OrderService.

(** ** lambdas/notifier-worker/index.ts *)

Module NotifierWorker.

(** The template of the [catch] block of [generateEmailContent]. *)
Definition fallback (order : OrderEvent) : JsValue :=
  JsObject
    [("subject", JsString ("Order Confirmation #" +:+ orderId order));
     ("body",
      JsString
        ("Thank you for your order! Your order for " +:+ pretty (quantity order)
           +:+ "x " +:+ productId order +:+ " ($" +:+ pretty (totalAmount order)
           +:+ ") has been received and is being processed."))].

(** [JSON.parse(content)] is returned as it is, whatever it is. *)
Definition generateEmailContent (order : OrderEvent) : Prog JsValue :=
  try_catch
    (let! response := call (email_completion order) in
     let! content := OrderService.message_content response in
     JSON_parse content)
    (λ err, Ret (fallback order)).

Definition process_record (record : SQSRecord) : Prog unit :=
  let! snsMessage := JSON_parse (body record) in
  let! order := JSON_parse (Message snsMessage) in
  let! emailContent := generateEmailContent order in
  try_catch
    (let! subject := member emailContent "subject" in
     let! text := member emailContent "body" in
     call (SendEmailCommand subject text))
    (λ err, Throw err).

Fixpoint handler (Records : list SQSRecord) : Prog unit :=
  match Records with
  | [] => Ret tt
  | record :: rest => do! process_record record in handler rest
  end.

End NotifierWorker.

(** * Part II. The vocabulary of the properties *)

(** From here on, an unqualified [handler], [process_order],
    [updateOrderStatus], ... is the one of the inventory worker. *)
Import InventoryWorker.

(** ** What is observed of a world *)

(** The stock as the worker reads it: 0 for an absent item. *)
Definition stock_of (w : World) (p : string) : Z :=
  parseInt_stock (inventory w !! p).

Definition status_of (w : World) (oid : string) : option AttributeValue :=
  orders w !! oid ≫= (λ it : Item, it !! "status").

(** No SDK call fails for a reason of its own. *)
Definition calm (w : World) : Prop := Forall (λ f, f = None) (faults w).

Definition is_sdk {X} (c : Call X) : bool :=
  match c with
  | GetItemCommand _ _ | PutItemCommand _ _ _ | UpdateItemCommand _ _ _ _
  | PublishCommand _ _ | SendEmailCommand _ _ => true
  | _ => false
  end.

Arguments update_item : simpl never.
Arguments put_item : simpl never.

(** ** Settlement *)

(** The SQS record that carries an order event through SNS. *)
Definition record_of (e : OrderEvent) : SQSRecord :=
  mkSQSRecord (IsJson (mkSnsEnvelope (IsJson e))).

(** The order item after [SET #s = :status, updatedAt = :ts]. *)
Definition status_item (oid st ts : string) (cur : option Item) : Item :=
  <["updatedAt" := AttrS ts]>
    (<["status" := AttrS st]> (default {[ "orderId" := AttrS oid ]} cur)).

Definition write_status (oid st ts : string) : Prog unit :=
  call (UpdateItemCommand ORDERS_TABLE oid
          [("status", OVal (AttrS st)); ("updatedAt", OVal (AttrS ts))] None).

(** The conditional decrement of the worker, as a call. *)
Definition decrement_stock (e : OrderEvent) : Call unit :=
  UpdateItemCommand INVENTORY_TABLE (productId e)
    [("stock", OMinus "stock" (quantity e))]
    (Some (attr_ge "stock" (quantity e))).

(** The conditional decrement goes through exactly when the stored stock
    is a number that is at least the quantity. *)
Definition can_decrement (tbl : TableData) (p : string) (q : Z) : bool :=
  match tbl !! p ≫= (λ it : Item, it !! "stock") with
  | Some (AttrN n) => q <=? n
  | _ => false
  end.

Definition decremented (tbl : TableData) (p : string) (q : Z) : TableData :=
  match tbl !! p with
  | Some it =>
      match it !! "stock" with
      | Some (AttrN n) => <[p := <["stock" := AttrN (n - q)]> it]> tbl
      | _ => tbl
      end
  | None => tbl
  end.

(** The status a settlement writes and the inventory it leaves are decided
    by the stored stock alone. *)
Definition settlement_status (tbl : TableData) (e : OrderEvent) : string :=
  if can_decrement tbl (productId e) (quantity e)
  then "CONFIRMED" else "FAILED_INSUFFICIENT_STOCK".

Definition settlement_inventory (tbl : TableData) (e : OrderEvent) : TableData :=
  if can_decrement tbl (productId e) (quantity e)
  then decremented tbl (productId e) (quantity e) else tbl.

(** ** Intake *)

Definition request (b : OrderRequest) : OrderService.APIGatewayProxyEvent :=
  OrderService.mkEvent (Some (IsJson b)).

Definition valid (b : OrderRequest) : bool :=
  OrderService.truthy_string (req_customerId b)
  && OrderService.truthy_string (req_productId b)
  && OrderService.truthy_number (req_quantity b)
  && OrderService.truthy_number (req_totalAmount b).

Definition fail_open : JsValue :=
  JsObject [("isFraudulent", JsBoolean false);
            ("reason", JsString "fraud check unavailable")].

(** The completion call failed: it threw (or timed out), or its response
    lacks the content, or the content is not JSON. *)
Definition completion_failed {T} (r : option (Error + AxiosResponse T)) : bool :=
  match r with
  | Some (inr resp) =>
      match content resp with
      | Some (IsJson _) => false
      | _ => true
      end
  | _ => true
  end.

(** What [OrderService.checkFraud] returns, read off the answer of the
    completion API. *)
Definition fraud_answer (w : World) : JsValue :=
  match head (fraud_api w) with
  | Some (inr resp) =>
      match content resp with
      | Some (IsJson fr) => fr
      | _ => fail_open
      end
  | _ => fail_open
  end.

(** What the handler makes of the value [fraudResult] that
    [OrderService.checkFraud] returns: reading [fraudResult.isFraudulent]
    throws, or the value is truthy and the order is flagged with
    [fraudResult.reason], or the order goes on to the store. *)
Inductive Gate :=
| GateThrows
| GateFlags (reason : JsValue)
| GatePasses.

Definition gate (fraudResult : JsValue) : Gate :=
  match fraudResult with
  | JsUndefined | JsNull => GateThrows
  | JsObject fields =>
      if truthy (own_property fields "isFraudulent")
      then GateFlags (own_property fields "reason")
      else GatePasses
  | _ => GatePasses
  end.

Definition after_fraud_call (w : World) : World :=
  mkWorld (orders w) (inventory w) (topic w) (outbox w) (faults w)
          (tail (fraud_api w)) (email_api w) (uuids w) (clock w).

Definition next_uuid (w : World) : string := default "" (head (uuids w)).
Definition next_time (w : World) : string := default "" (head (clock w)).

(** The item that the handler puts, and the event it publishes. *)
Definition order_item (id : string) (b : OrderRequest) (ts : string) : Item :=
  {[ "orderId" := AttrS id;
     "customerId" := AttrS (OrderService.str (req_customerId b));
     "productId" := AttrS (OrderService.str (req_productId b));
     "quantity" := AttrN (OrderService.num (req_quantity b));
     "totalAmount" := AttrN (OrderService.num (req_totalAmount b));
     "status" := AttrS "PENDING";
     "createdAt" := AttrS ts ]}.

Definition order_event (id : string) (b : OrderRequest) (ts : string) : OrderEvent :=
  mkOrderEvent id
    (OrderService.str (req_customerId b)) (OrderService.str (req_productId b))
    (OrderService.num (req_quantity b)) (OrderService.num (req_totalAmount b)) ts.

Definition insert_order (id : string) (b : OrderRequest) (ts : string) : Call unit :=
  PutItemCommand ORDERS_TABLE (order_item id b ts)
    (Some (attribute_not_exists "orderId")).

(** The part of the handler after the fraud check. *)
Definition persist_and_publish (b : OrderRequest)
    : Prog OrderService.APIGatewayProxyResult :=
  let! orderId := call randomUUID in
  let! timestamp := call Date_toISOString in
  do! call (insert_order orderId b timestamp) in
  do! call (PublishCommand (order_event orderId b timestamp) "ORDER_CREATED") in
  Ret (OrderService.mkResult 201
         (OrderService.CreatedBody orderId "PENDING" "Order created successfully")).

Definition created (id : string) : OrderService.APIGatewayProxyResult :=
  OrderService.mkResult 201
    (OrderService.CreatedBody id "PENDING" "Order created successfully").

Definition internal_error : OrderService.APIGatewayProxyResult :=
  OrderService.mkResult 500 (OrderService.ErrorBody "Internal server error").

(** ** Notification *)

(** A value whose properties can be read: anything but [null] and
    [undefined]. *)
Definition readable (v : JsValue) : bool :=
  match v with
  | JsUndefined | JsNull => false
  | _ => true
  end.

(** [v.name] for a readable [v]. *)
Definition read (v : JsValue) (name : string) : JsValue :=
  match v with
  | JsObject fields => own_property fields name
  | _ => JsUndefined
  end.

(** What [NotifierWorker.generateEmailContent] returns, read off the answer
    of the completion API. *)
Definition email_answer (order : OrderEvent) (w : World) : JsValue :=
  match head (email_api w) with
  | Some (inr resp) =>
      match content resp with
      | Some (IsJson v) => v
      | _ => NotifierWorker.fallback order
      end
  | _ => NotifierWorker.fallback order
  end.

Definition after_email_call (w : World) : World :=
  mkWorld (orders w) (inventory w) (topic w) (outbox w) (faults w)
          (fraud_api w) (tail (email_api w)) (uuids w) (clock w).

(** ** Failures inside the settlement worker *)

(** Every call of the program hands a failure that is not a conditional
    check failure on to its caller. *)
Fixpoint propagates {A} (p : Prog A) : Prop :=
  match p with
  | Vis c k =>
      (∀ err, err_name err ≠ "ConditionalCheckFailedException" →
              k (inl err) = Throw err) ∧
      (∀ r, propagates (k r))
  | _ => True
  end.

(** ** Concurrent settlements *)

(** A call writes the Inventory table only as the guarded decrement. *)
Definition guarded {X} (c : Call X) : Prop :=
  match c with
  | UpdateItemCommand INVENTORY_TABLE _ acts cond =>
      ∃ q, acts = [("stock", OMinus "stock" q)] ∧ cond = Some (attr_ge "stock" q)
  | PutItemCommand INVENTORY_TABLE _ _ => False
  | _ => True
  end.

Fixpoint inventory_safe {A} (p : Prog A) : Prop :=
  match p with
  | Vis c k => guarded c ∧ ∀ r, inventory_safe (k r)
  | _ => True
  end.

(** One invocation per order event, each on a batch of one record. *)
Definition invocations (evs : list OrderEvent) : list (Prog unit) :=
  (λ e, handler [record_of e]) <$> evs.

Definition is_confirmed (w : World) (e : OrderEvent) : bool :=
  bool_decide (status_of w (orderId e) = Some (AttrS "CONFIRMED")).

(** The sum of the quantities of the orders for product [p] that are
    CONFIRMED in [w]. *)
Fixpoint confirmed_total (w : World) (p : string) (evs : list OrderEvent) : Z :=
  match evs with
  | [] => 0
  | e :: evs =>
      (if bool_decide (productId e = p) && is_confirmed w e then quantity e else 0)
      + confirmed_total w p evs
  end.

(** Where an invocation on a single record stands between two calls, when
    no call fails for its own reasons. *)
Inductive phase :=
| AtRead                       (* about to read the stock *)
| FailDate                     (* stock too low: about to take the time *)
| FailWrite (ts : string)      (* about to write FAILED_INSUFFICIENT_STOCK *)
| AtDecrement                  (* about to issue the conditional decrement *)
| ConfirmDate                  (* decremented: about to take the time *)
| ConfirmWrite (ts : string)   (* about to write CONFIRMED *)
| RaceDate                     (* decrement rejected: in the catch block *)
| RaceWrite (ts : string)
| DoneConfirmed
| DoneFailed.

Definition in_try (e : OrderEvent) (p : Prog unit) : Prog unit :=
  do! try_catch p (on_error e) in handler [].

(** The rest of the invocation in each phase. *)
Definition prog_of (e : OrderEvent) (ph : phase) : Prog unit :=
  match ph with
  | AtRead => handler [record_of e]
  | FailDate =>
      in_try e (updateOrderStatus (orderId e) "FAILED_INSUFFICIENT_STOCK")
  | FailWrite ts =>
      in_try e (write_status (orderId e) "FAILED_INSUFFICIENT_STOCK" ts)
  | AtDecrement =>
      in_try e (do! call (decrement_stock e) in
                updateOrderStatus (orderId e) "CONFIRMED")
  | ConfirmDate => in_try e (updateOrderStatus (orderId e) "CONFIRMED")
  | ConfirmWrite ts => in_try e (write_status (orderId e) "CONFIRMED" ts)
  | RaceDate =>
      do! updateOrderStatus (orderId e) "FAILED_INSUFFICIENT_STOCK" in handler []
  | RaceWrite ts =>
      do! write_status (orderId e) "FAILED_INSUFFICIENT_STOCK" ts in handler []
  | DoneConfirmed | DoneFailed => Ret tt
  end.

(** The quantity an invocation has taken from the stock so far. *)
Definition taken (e : OrderEvent) (ph : phase) : Z :=
  match ph with
  | ConfirmDate | ConfirmWrite _ | DoneConfirmed => quantity e
  | _ => 0
  end.

Definition taken_from (p : string) (e : OrderEvent) (ph : phase) : Z :=
  if bool_decide (productId e = p) then taken e ph else 0.

Definition done_ok (e : OrderEvent) (ph : phase) (w : World) : Prop :=
  match ph with
  | DoneConfirmed => status_of w (orderId e) = Some (AttrS "CONFIRMED")
  | DoneFailed => status_of w (orderId e) = Some (AttrS "FAILED_INSUFFICIENT_STOCK")
  | _ => True
  end.

Fixpoint total_taken (p : string) (evs : list OrderEvent) (phs : list phase) : Z :=
  match evs, phs with
  | e :: evs, ph :: phs => taken_from p e ph + total_taken p evs phs
  | _, _ => 0
  end.

(** The pool is in the phases [phs]: the stock that has left the inventory
    is what the invocations have taken. *)
Definition pool_state (w0 : World) (evs : list OrderEvent) (phs : list phase)
    (st : list (Prog unit) * World) : Prop :=
  st.1 = zip_with prog_of evs phs ∧ calm st.2 ∧
  Forall2 (λ e ph, done_ok e ph st.2) evs phs ∧
  ∀ p, stock_of st.2 p = stock_of w0 p - total_taken p evs phs.

Definition pool_inv (w0 : World) (evs : list OrderEvent)
    (st : list (Prog unit) * World) : Prop :=
  ∃ phs, pool_state w0 evs phs st.

(** The number of calls an invocation has still to make, at most. *)
Definition rank (ph : phase) : nat :=
  match ph with
  | AtRead => 4
  | AtDecrement => 3
  | FailDate | ConfirmDate | RaceDate => 2
  | FailWrite _ | ConfirmWrite _ | RaceWrite _ => 1
  | DoneConfirmed | DoneFailed => 0
  end.

Definition sum_rank (phs : list phase) : nat :=
  foldr (λ ph n, rank ph + n)%nat 0%nat phs.

(** ** Worlds and events used as concrete inputs *)

Definition inventory_item (p : string) (n : Z) : Item :=
  {[ "productId" := AttrS p; "stock" := AttrN n ]}.

Definition pending_item (e : OrderEvent) : Item :=
  {[ "orderId" := AttrS (orderId e); "customerId" := AttrS (customerId e);
     "productId" := AttrS (productId e); "quantity" := AttrN (quantity e);
     "totalAmount" := AttrN (totalAmount e); "status" := AttrS "PENDING";
     "createdAt" := AttrS (timestamp e) ]}.

(** A store holding one product and one pending order, every call going
    through. *)
Definition shop (p : string) (n : Z) (e : OrderEvent) : World :=
  mkWorld {[ orderId e := pending_item e ]} {[ p := inventory_item p n ]}
          [] [] [] [] [] [] ["2024-01-01T00:00:01Z"; "2024-01-01T00:00:02Z"].

Definition empty_orders (w : World) : World :=
  mkWorld ∅ (inventory w) (topic w) (outbox w) (faults w)
          (fraud_api w) (email_api w) (uuids w) (clock w).

Definition after_sale (w : World) (p : string) (n : Z) : World :=
  mkWorld (orders w) {[ p := inventory_item p n ]} (topic w) (outbox w)
          (faults w) (fraud_api w) (email_api w) (uuids w) (clock w).

Definition with_faults (fs : list (option Error)) (w : World) : World :=
  mkWorld (orders w) (inventory w) (topic w) (outbox w) fs
          (fraud_api w) (email_api w) (uuids w) (clock w).

(** A world with an empty Orders table; [api] is what the completion API
    will answer, [ids] what the UUID generator will return. *)
Definition front (api : list (Error + AxiosResponse JsValue))
    (ids : list string) : World :=
  mkWorld ∅ {[ "P-1" := inventory_item "P-1" 10 ]} [] [] [] api [] ids
          ["2024-01-01T00:00:01Z"; "2024-01-01T00:00:02Z"].

(** The completion API answers with a content that parses to [v]. *)
Definition answer (v : JsValue) : Error + AxiosResponse JsValue :=
  inr (mkAxiosResponse (Some (IsJson v))).

(** The object the fraud prompt asks for. *)
Definition verdict (isFraudulent : bool) (reason : string) : JsValue :=
  JsObject [("isFraudulent", JsBoolean isFraudulent);
            ("reason", JsString reason)].

Definition order_P1 : OrderEvent :=
  mkOrderEvent "o-1" "CUST-1" "P-1" 2 100 "2024-01-01T00:00:00Z".

Definition order_P3 : OrderEvent :=
  mkOrderEvent "o-3" "CUST-789" "P-3" 10 790 "2024-01-01T00:00:00Z".

Definition request_P1 : OrderRequest :=
  mkOrderRequest (Some "CUST-1") (Some "P-1") (Some 2) (Some 100).

Definition request_bulk : OrderRequest :=
  mkOrderRequest (Some "CUST-456") (Some "P-1") (Some 500) (Some 499000).


(** ** Further vocabulary: what a program can call, what a batch holds *)

(** Every call the program can make satisfies [P]. *)
Fixpoint all_calls {A} (P : ∀ X, Call X → Prop) (p : Prog A) : Prop :=
  match p with
  | Vis c k => P _ c ∧ ∀ r, all_calls P (k r)
  | _ => True
  end.

(** The order event a record carries, when both layers of JSON parse. *)
Definition order_of (r : SQSRecord) : option OrderEvent :=
  match body r with
  | IsJson m =>
      match Message m with
      | IsJson e => Some e
      | NotJson _ => None
      end
  | NotJson _ => None
  end.

Definition batch_orders (Records : list SQSRecord) : list OrderEvent :=
  omap order_of Records.

(** The calls of the settlement worker on a batch whose orders have the
    identifiers [ids]. *)
Definition worker_call (ids : list string) {X} (c : Call X) : Prop :=
  match c with
  | GetItemCommand _ _ | Date_toISOString => True
  | UpdateItemCommand ORDERS_TABLE k acts None =>
      k ∈ ids ∧
      ∃ st ts, acts = [("status", OVal (AttrS st)); ("updatedAt", OVal (AttrS ts))]
  | UpdateItemCommand INVENTORY_TABLE _ acts cond =>
      ∃ q, acts = [("stock", OMinus "stock" q)] ∧ cond = Some (attr_ge "stock" q)
  | _ => False
  end.

(** What the settlement worker leaves alone in the Orders table, the topic
    and the outbox. *)
Definition orders_frame (ids : list string) (w w' : World) : Prop :=
  topic w' = topic w ∧ outbox w' = outbox w ∧
  (∀ oid, oid ∉ ids → orders w' !! oid = orders w !! oid) ∧
  (∀ oid it, orders w !! oid = Some it →
     ∃ it', orders w' !! oid = Some it' ∧
            ∀ a, a ≠ "status" → a ≠ "updatedAt" → it' !! a = it !! a).

(** No inventory item is created or deleted, and no attribute but the stock
    is changed. *)
Definition inventory_kept (tbl tbl' : TableData) : Prop :=
  (∀ p, tbl' !! p = None ↔ tbl !! p = None) ∧
  (∀ p a, a ≠ "stock" →
     tbl' !! p ≫= (λ it : Item, it !! a) = tbl !! p ≫= (λ it : Item, it !! a)).

(** The conditional put of an order lets a key through: nothing is stored
    under it, or what is stored has no orderId. *)
Definition key_free (tbl : TableData) (id : string) : Prop :=
  match tbl !! id with
  | Some it => it !! "orderId" = None
  | None => True
  end.

(** Every stored order carries its key attribute. *)
Definition orders_keyed (w : World) : Prop :=
  ∀ k it, orders w !! k = Some it → it !! "orderId" ≠ None.

(** The calls of the notification worker. *)
Definition notifier_call {X} (c : Call X) : Prop :=
  match c with
  | email_completion _ | SendEmailCommand _ _ => True
  | _ => False
  end.

(** The tables and the topic are as they were; mails were at most added. *)
Definition only_mails_added (w w' : World) : Prop :=
  orders w' = orders w ∧ inventory w' = inventory w ∧ topic w' = topic w ∧
  ∃ sent, outbox w' = (outbox w ++ sent)%list.

(** The mail built from the template. *)
Definition fallback_mail (e : OrderEvent) : Email :=
  mkEmail (read (NotifierWorker.fallback e) "subject")
          (read (NotifierWorker.fallback e) "body").

(** The phases of an invocation that has not met a shortage. *)
Definition no_fail (ph : phase) : Prop :=
  match ph with
  | AtRead | AtDecrement | ConfirmDate | ConfirmWrite _ | DoneConfirmed => True
  | _ => False
  end.

(** The sum of the quantities asked for. *)
Definition demand (evs : list OrderEvent) : Z :=
  foldr (λ e z, quantity e + z) 0 evs.

(** The item of product [p] exists and its stock is a number. *)
Definition has_stock_number (tbl : TableData) (p : string) : Prop :=
  ∃ n, tbl !! p ≫= (λ it : Item, it !! "stock") = Some (AttrN n).

(** ** Settlements with redelivery and failing calls *)

(** What an invocation holds: the product and the quantity of a decrement
    of its own that went through and that no status write has followed. *)
Abbreviation Holding := (option (string * Z)).

Definition held (p : string) (h : Holding) : Z :=
  match h with
  | Some (pid, q) => if bool_decide (pid = p) then q else 0
  | None => 0
  end.

Definition held_total (p : string) (hs : list Holding) : Z :=
  foldr (λ h z, held p h + z) 0 hs.

(** The quantity of [SET stock = stock - :qty]. *)
Definition decrement_quantity (acts : list SetAction) : option Z :=
  match acts with
  | [(_, OMinus _ q)] => Some q
  | _ => None
  end.

(** What an invocation holds after a call: a decrement that goes through
    gives it the quantity; a read of the store or of the clock leaves it what
    it had; after any other call it holds nothing. *)
Definition holding_after (h : Holding) {X} (c : Call X) (r : Error + X) : Holding :=
  match c with
  | GetItemCommand _ _ | Date_toISOString => h
  | UpdateItemCommand INVENTORY_TABLE pid acts _ =>
      match r, decrement_quantity acts with
      | inr _, Some q => Some (pid, q)
      | _, _ => None
      end
  | _ => None
  end.

(** A call of an invocation that holds [h], on orders among [known]: the
    Inventory table is written by the guarded decrement of a quantity that is
    not negative, and CONFIRMED is written only for an order whose product
    and quantity the invocation holds. *)
Definition accounted (known : list OrderEvent) (h : Holding) {X} (c : Call X)
    : Prop :=
  match c with
  | GetItemCommand _ _ | Date_toISOString => True
  | UpdateItemCommand INVENTORY_TABLE _ acts cond =>
      ∃ q, 0 ≤ q ∧ acts = [("stock", OMinus "stock" q)] ∧
           cond = Some (attr_ge "stock" q)
  | UpdateItemCommand ORDERS_TABLE oid acts cond =>
      ∃ st ts,
        acts = [("status", OVal (AttrS st)); ("updatedAt", OVal (AttrS ts))] ∧
        cond = None ∧
        (st = "CONFIRMED" →
         ∃ e, e ∈ known ∧ orderId e = oid ∧ h = Some (productId e, quantity e))
  | _ => False
  end.

Fixpoint accounts {A} (known : list OrderEvent) (h : Holding) (t : Prog A) : Prop :=
  match t with
  | Vis c k => accounted known h c ∧ ∀ r, accounts known (holding_after h c r) (k r)
  | _ => True
  end.

(** The sum of the quantities of the orders for product [p] that [g]
    selects. *)
Fixpoint quantity_total (g : OrderEvent → bool) (p : string)
    (evs : list OrderEvent) : Z :=
  match evs with
  | [] => 0
  | e :: evs =>
      (if bool_decide (productId e = p) && g e then quantity e else 0)
      + quantity_total g p evs
  end.

(** The order is CONFIRMED in some state of the run of [sched] from [st],
    the first and the last state included. *)
Fixpoint reached_confirmed (sched : list nat) (st : list (Prog unit) * World)
    (e : OrderEvent) : bool :=
  is_confirmed st.2 e ||
  match sched with
  | [] => false
  | i :: sched => reached_confirmed sched (sched_step st i) e
  end.

(** The sum of the quantities of the orders for product [p] that reach
    CONFIRMED during the run, whatever becomes of their status later. *)
Definition reached_total (sched : list nat) (st : list (Prog unit) * World)
    (p : string) (evs : list OrderEvent) : Z :=
  quantity_total (reached_confirmed sched st) p evs.

(** In the state [st] of a pool, [g] selecting at least the orders that are
    CONFIRMED: the quantities of the selected orders of product [p], its
    stock and what the invocations hold of it are together at most [bound]. *)
Definition settled_within (known : list OrderEvent) (p : string) (bound : Z)
    (g : OrderEvent → bool) (st : list (Prog unit) * World) : Prop :=
  ∃ hs, Forall2 (λ h t, 0 ≤ held p h ∧ accounts known h t) hs st.1 ∧
        (∀ e, e ∈ known → is_confirmed st.2 e = true → g e = true) ∧
        quantity_total g p known + stock_of st.2 p + held_total p hs ≤ bound.

(** * Part III. Lemmas *)

(** ** Running programs *)

Lemma run_bind {A B} (p : Prog A) (f : A → Prog B) (w : World) :
  run (bind p f) w =
  match run p w with
  | (Returned a, w') => run (f a) w'
  | (Thrown e, w') => (Thrown e, w')
  end.
Proof.
  revert w. induction p as [a|e|X c k IH]; intros w; simpl; try done.
  destruct (perform c w) as [r w']. apply IH.
Qed.

Lemma run_try_catch {A} (p : Prog A) (h : Error → Prog A) (w : World) :
  run (try_catch p h) w =
  match run p w with
  | (Returned a, w') => (Returned a, w')
  | (Thrown e, w') => run (h e) w'
  end.
Proof.
  revert w. induction p as [a|e|X c k IH]; intros w; simpl; try done.
  destruct (perform c w) as [r w']. apply IH.
Qed.

Lemma run_call {X} (c : Call X) (w : World) :
  run (call c) w =
  match perform c w with
  | (inr x, w') => (Returned x, w')
  | (inl e, w') => (Thrown e, w')
  end.
Proof. simpl. destruct (perform c w) as [[e|x] w']; done. Qed.

Lemma calm_head (w : World) :
  calm w → head (faults w) = None ∨ head (faults w) = Some None.
Proof.
  unfold calm. destruct (faults w) as [|f fs]; [by left|].
  intros H. apply Forall_cons in H as [-> _]. by right.
Qed.

Lemma calm_tick (w : World) : calm w → calm (tick w).
Proof.
  unfold calm. simpl. destruct (faults w) as [|f fs]; [done|].
  intros H. by apply Forall_cons in H as [_ H].
Qed.

Lemma perform_calm {X} (c : Call X) (w : World) :
  is_sdk c = true → calm w → perform c w = sdk_effect c (tick w).
Proof.
  intros Hc Hw. destruct (calm_head w Hw) as [H|H];
    destruct c; simpl in *; try discriminate; by rewrite H.
Qed.

Lemma perform_date (w : World) :
  perform Date_toISOString w =
  (inr (default "" (head (clock w))),
   mkWorld (orders w) (inventory w) (topic w) (outbox w) (faults w)
           (fraud_api w) (email_api w) (uuids w) (tail (clock w))).
Proof. reflexivity. Qed.

Lemma sdk_effect_faults {X} (c : Call X) (w : World) :
  faults (sdk_effect c w).2 = faults w.
Proof.
  destruct c; cbn [sdk_effect]; try done.
  - destruct (put_item _ _ _ _); [done|]. by destruct t.
  - destruct (update_item _ _ _ _ _); [done|]. by destruct t.
Qed.

(** A call uses at most one entry of [faults]; an entry that holds an
    error is the answer of the call. *)
Lemma perform_faults {X} (c : Call X) (w w1 : World) (r : Error + X) :
  perform c w = (r, w1) →
  faults w1 = faults w ∨
  ∃ f, faults w = f :: faults w1 ∧ ∀ err, f = Some err → r = inl err.
Proof.
  assert (Hsdk : ∀ c' : Call X,
    match head (faults w) with
    | Some (Some e) => (inl e, tick w)
    | _ => sdk_effect c' (tick w)
    end = (r, w1) →
    faults w1 = faults w ∨
    ∃ f, faults w = f :: faults w1 ∧ ∀ err, f = Some err → r = inl err).
  { intros c'. pose proof (sdk_effect_faults c' (tick w)) as Hf.
    destruct (faults w) as [|[e|] fs] eqn:Hfs; cbn [head].
    - intros H. rewrite H in Hf. cbn in Hf. rewrite Hfs in Hf. by left.
    - intros [= <- <-]. right. exists (Some e). cbn. rewrite Hfs.
      split; [done|]. by intros err [= ->].
    - intros H. rewrite H in Hf. cbn in Hf. rewrite Hfs in Hf. cbn in Hf.
      right. exists None. by rewrite Hf. }
  destruct c; cbn [perform]; try apply Hsdk; intros [= <- <-]; by left.
Qed.

Lemma perform_sdk_cases {X} (c : Call X) (w w' : World) (r : Error + X) :
  is_sdk c = true → perform c w = (r, w') →
  (∃ e, r = inl e ∧ w' = tick w) ∨ sdk_effect c (tick w) = (r, w').
Proof.
  intros Hc. destruct c; try discriminate; cbn [perform];
    (destruct (head (faults w)) as [[e|]|];
     [intros [= <- <-]; left; by exists e | by right | by right]).
Qed.

(** ** The two store writes of the settlement worker *)

Lemma update_status (oid st ts : string) (tbl : TableData) :
  update_item ORDERS_TABLE oid
    [("status", OVal (AttrS st)); ("updatedAt", OVal (AttrS ts))] None tbl
  = inr (<[oid := status_item oid st ts (tbl !! oid)]> tbl).
Proof. reflexivity. Qed.

Lemma status_item_status (oid st ts : string) (cur : option Item) :
  status_item oid st ts cur !! "status" = Some (AttrS st).
Proof.
  unfold status_item. rewrite lookup_insert_ne by done. by rewrite lookup_insert_eq.
Qed.

Lemma status_item_fresh (oid st ts : string) :
  status_item oid st ts None =
  {[ "orderId" := AttrS oid; "status" := AttrS st; "updatedAt" := AttrS ts ]}.
Proof.
  vm_compute. reflexivity.
Qed.

Lemma status_written (oid st ts : string) (w : World) :
  status_of
    (set_table ORDERS_TABLE
       (<[oid := status_item oid st ts (orders w !! oid)]> (orders w)) w) oid
  = Some (AttrS st).
Proof.
  unfold status_of. cbn [set_table orders]. rewrite lookup_insert_eq.
  cbn [mbind option_bind]. apply status_item_status.
Qed.

Lemma update_decrement (p : string) (q : Z) (tbl : TableData) :
  update_item INVENTORY_TABLE p [("stock", OMinus "stock" q)]
    (Some (attr_ge "stock" q)) tbl
  = if can_decrement tbl p q then inr (decremented tbl p q)
    else inl ConditionalCheckFailedException.
Proof.
  unfold update_item, can_decrement, decremented. simpl.
  destruct (tbl !! p) as [it|] eqn:Hit; simpl; [|done].
  destruct (it !! "stock") as [[s|n]|] eqn:Hs; simpl; done.
Qed.

Lemma can_decrement_read (tbl : TableData) (p : string) (q : Z) :
  can_decrement tbl p q = true →
  (parseInt_stock (tbl !! p) <? q) = false.
Proof.
  unfold can_decrement, parseInt_stock.
  destruct (tbl !! p ≫= _) as [[s|n]|]; try done. intros H. lia.
Qed.

Lemma stock_low_cannot_decrement (w : World) (e : OrderEvent) :
  stock_of w (productId e) < quantity e →
  can_decrement (inventory w) (productId e) (quantity e) = false.
Proof.
  intros H. destruct (can_decrement _ _ _) eqn:Hcan; [|done].
  apply can_decrement_read in Hcan. unfold stock_of in H. lia.
Qed.

Lemma stock_decremented (tbl : TableData) (p : string) (q : Z) :
  can_decrement tbl p q = true →
  parseInt_stock (decremented tbl p q !! p) = parseInt_stock (tbl !! p) - q.
Proof.
  unfold can_decrement, decremented, parseInt_stock.
  destruct (tbl !! p) as [it|] eqn:Hit; cbn [mbind option_bind]; [|done].
  destruct (it !! "stock") as [[s|n]|] eqn:Hs; try done. intros _.
  rewrite lookup_insert_eq. cbn [mbind option_bind]. by rewrite lookup_insert_eq.
Qed.

Lemma stock_decremented_other (tbl : TableData) (p p' : string) (q : Z) :
  p ≠ p' → decremented tbl p q !! p' = tbl !! p'.
Proof.
  intros Hne. unfold decremented.
  destruct (tbl !! p) as [it|]; [|done].
  destruct (it !! "stock") as [[s|n]|]; try done.
  by rewrite lookup_insert_ne.
Qed.

Lemma decrement_keeps_nonneg (tbl : TableData) (p q' : string) (q : Z) :
  can_decrement tbl p q = true →
  0 ≤ parseInt_stock (tbl !! q') →
  0 ≤ parseInt_stock (decremented tbl p q !! q').
Proof.
  intros Hcan Hq'. destruct (decide (p = q')) as [<-|Hne].
  - rewrite stock_decremented by done.
    unfold can_decrement, parseInt_stock in *.
    destruct (tbl !! p ≫= _) as [[s|n]|]; try done. lia.
  - by rewrite stock_decremented_other.
Qed.

(** The conditional decrement at the moment it is made. *)
Lemma perform_decrement (e : OrderEvent) (w : World) :
  match perform (decrement_stock e) w with
  | (inr _, w') =>
      can_decrement (inventory w) (productId e) (quantity e) = true ∧
      quantity e ≤ stock_of w (productId e) ∧
      stock_of w' (productId e) = stock_of w (productId e) - quantity e
  | (inl _, w') => inventory w' = inventory w
  end.
Proof.
  unfold decrement_stock. cbn [perform].
  assert (Hsdk :
    match sdk_effect (UpdateItemCommand INVENTORY_TABLE (productId e)
            [("stock", OMinus "stock" (quantity e))]
            (Some (attr_ge "stock" (quantity e)))) (tick w) with
    | (inr _, w') =>
        can_decrement (inventory w) (productId e) (quantity e) = true ∧
        quantity e ≤ stock_of w (productId e) ∧
        stock_of w' (productId e) = stock_of w (productId e) - quantity e
    | (inl _, w') => inventory w' = inventory w
    end).
  { cbn [sdk_effect table tick inventory]. rewrite update_decrement.
    destruct (can_decrement _ _ _) eqn:Hcan; [|done].
    split; [done|]. unfold stock_of. cbn [set_table inventory].
    split; [|by apply stock_decremented].
    apply can_decrement_read in Hcan. lia. }
  by destruct (head (faults w)) as [[err|]|].
Qed.

Lemma settlement_status_cases (tbl : TableData) (e : OrderEvent) :
  settlement_status tbl e = "CONFIRMED" ∨
  settlement_status tbl e = "FAILED_INSUFFICIENT_STOCK".
Proof. unfold settlement_status. destruct (can_decrement _ _ _); auto. Qed.

(** ** One settlement running alone, no call failing for its own reasons *)

Lemma run_updateOrderStatus (oid st : string) (w : World) :
  calm w →
  ∃ w', run (updateOrderStatus oid st) w = (Returned tt, w') ∧ calm w' ∧
    orders w' =
      <[oid := status_item oid st (default "" (head (clock w))) (orders w !! oid)]>
        (orders w) ∧
    inventory w' = inventory w ∧ topic w' = topic w ∧ outbox w' = outbox w ∧
    clock w' = tail (clock w).
Proof.
  intros Hw. unfold updateOrderStatus.
  rewrite run_bind, run_call, perform_date, run_call.
  rewrite perform_calm by done. simpl.
  eexists. split; [done|]. repeat split; try done.
  by apply calm_tick in Hw.
Qed.

Lemma run_process_order (e : OrderEvent) (w : World) :
  calm w →
  ∃ w', run (process_order e) w = (Returned tt, w') ∧ calm w' ∧
    orders w' =
      <[orderId e := status_item (orderId e) (settlement_status (inventory w) e)
                       (default "" (head (clock w))) (orders w !! orderId e)]>
        (orders w) ∧
    inventory w' = settlement_inventory (inventory w) e ∧
    topic w' = topic w ∧ outbox w' = outbox w ∧ clock w' = tail (clock w).
Proof.
  intros Hw. unfold process_order, settle, settlement_status, settlement_inventory.
  rewrite run_try_catch, run_bind, run_call, perform_calm by done.
  cbn [sdk_effect table tick inventory].
  pose proof (calm_tick w Hw) as Hw1.
  destruct (parseInt_stock (inventory w !! productId e) <? quantity e) eqn:Hread.
  - (* the read shows too little stock *)
    destruct (can_decrement (inventory w) (productId e) (quantity e)) eqn:Hcan.
    { apply can_decrement_read in Hcan. congruence. }
    destruct (run_updateOrderStatus (orderId e) "FAILED_INSUFFICIENT_STOCK"
                (tick w) Hw1) as (w' & -> & Hw' & Ho & Hi & Ht & Hm & Hc).
    exists w'. by repeat split.
  - (* the conditional decrement is issued *)
    rewrite run_bind, run_call, perform_calm by done.
    cbn [sdk_effect table tick inventory]. rewrite update_decrement.
    pose proof (calm_tick _ Hw1) as Hw2.
    destruct (can_decrement (inventory w) (productId e) (quantity e)) eqn:Hcan;
      cbv beta iota.
    + match goal with |- context [run _ ?w2] =>
        destruct (run_updateOrderStatus (orderId e) "CONFIRMED" w2)
          as (w' & -> & Hw' & Ho & Hi & Ht & Hm & Hc); [done|] end.
      exists w'. by repeat split.
    + cbn [on_error err_name ConditionalCheckFailedException String.eqb
             Ascii.eqb Bool.eqb].
      destruct (run_updateOrderStatus (orderId e) "FAILED_INSUFFICIENT_STOCK"
                  (tick (tick w)) Hw2) as (w' & -> & Hw' & Ho & Hi & Ht & Hm & Hc).
      exists w'. by repeat split.
Qed.

Lemma run_handler_cons (e : OrderEvent) (rest : list SQSRecord) (w : World) :
  run (handler (record_of e :: rest)) w =
  match run (process_order e) w with
  | (Returned _, w') => run (handler rest) w'
  | (Thrown err, w') => (Thrown err, w')
  end.
Proof. cbn [handler]. by rewrite run_bind. Qed.

(** One settlement inside a batch: where it leaves the store, and that the
    handler goes on with the rest of the batch. *)
Lemma run_handler_settles (e : OrderEvent) (rest : list SQSRecord) (w : World) :
  calm w →
  ∃ w', run (handler (record_of e :: rest)) w = run (handler rest) w' ∧ calm w' ∧
    orders w' =
      <[orderId e := status_item (orderId e) (settlement_status (inventory w) e)
                       (default "" (head (clock w))) (orders w !! orderId e)]>
        (orders w) ∧
    inventory w' = settlement_inventory (inventory w) e ∧
    topic w' = topic w ∧ outbox w' = outbox w.
Proof.
  intros Hw. rewrite run_handler_cons.
  destruct (run_process_order e w Hw) as (w' & -> & Hw' & Ho & Hi & Ht & Hm & _).
  by exists w'.
Qed.

(** ** Failures inside the settlement worker *)

Lemma propagates_bind {A B} (p : Prog A) (f : A → Prog B) :
  propagates p → (∀ a, propagates (f a)) → propagates (bind p f).
Proof.
  intros Hp Hf. induction p as [a|e|X c k IH]; cbn; [apply Hf|done|].
  destruct Hp as [Hthrow Hk]. split.
  - intros err Hne. by rewrite (Hthrow err Hne).
  - intros r. by apply IH.
Qed.

Lemma propagates_call {X} (c : Call X) : propagates (call c).
Proof. cbn. split; [done|]. by intros [e|x]. Qed.

Lemma propagates_try_catch {A} (p : Prog A) (h : Error → Prog A) :
  propagates p → (∀ err, propagates (h err)) →
  (∀ err, err_name err ≠ "ConditionalCheckFailedException" → h err = Throw err) →
  propagates (try_catch p h).
Proof.
  intros Hp Hh Hre. induction p as [a|e|X c k IH]; cbn; [done|apply Hh|].
  destruct Hp as [Hthrow Hk]. split.
  - intros err Hne. rewrite (Hthrow err Hne). cbn. by apply Hre.
  - intros r. by apply IH.
Qed.

Lemma propagates_updateOrderStatus (oid st : string) :
  propagates (updateOrderStatus oid st).
Proof.
  apply propagates_bind; [apply propagates_call|]. intros ts. apply propagates_call.
Qed.

Lemma on_error_rethrows (e : OrderEvent) (err : Error) :
  err_name err ≠ "ConditionalCheckFailedException" → on_error e err = Throw err.
Proof.
  intros Hne. unfold on_error.
  destruct (String.eqb_spec (err_name err) "ConditionalCheckFailedException"); done.
Qed.

Lemma propagates_process_order (e : OrderEvent) : propagates (process_order e).
Proof.
  apply propagates_try_catch.
  - apply propagates_bind; [apply propagates_call|]. intros item. cbv zeta.
    destruct (_ <? _); [apply propagates_updateOrderStatus|].
    apply propagates_bind; [apply propagates_call|].
    intros _. apply propagates_updateOrderStatus.
  - intros err. unfold on_error.
    destruct (String.eqb _ _); [apply propagates_updateOrderStatus|done].
  - apply on_error_rethrows.
Qed.

Lemma propagates_JSON_parse {T} (s : Json T) : propagates (JSON_parse s).
Proof. by destruct s. Qed.

Lemma propagates_handler (Records : list SQSRecord) : propagates (handler Records).
Proof.
  induction Records as [|r rs IH]; [done|].
  cbn [handler]. apply propagates_bind; [|done].
  apply propagates_bind; [apply propagates_JSON_parse|]. intros m.
  apply propagates_bind; [apply propagates_JSON_parse|]. intros e.
  apply propagates_process_order.
Qed.

Lemma propagates_run {A} (p : Prog A) (w w' : World) (out : Outcome A) :
  propagates p → run p w = (out, w') →
  ∃ used, faults w = (used ++ faults w')%list ∧
    ∀ err, Some err ∈ used →
           err_name err ≠ "ConditionalCheckFailedException" → out = Thrown err.
Proof.
  revert w. induction p as [a|e|X c k IH]; intros w Hp; cbn [run].
  - intros [= <- <-]. exists []. split; [done|]. by intros err ?%elem_of_nil.
  - intros [= <- <-]. exists []. split; [done|]. by intros err ?%elem_of_nil.
  - destruct Hp as [Hthrow Hk].
    destruct (perform c w) as [r w1] eqn:Hc. intros Hrun.
    destruct (IH r w1 (Hk r) Hrun) as (used & Hused & Hout).
    destruct (perform_faults c w w1 r Hc) as [Heq|(f & Hf & Hans)].
    + exists used. by rewrite <- Heq.
    + exists (f :: used). split; [by rewrite Hf, Hused|].
      intros err [Heq|Hin]%elem_of_cons Hne; [|by apply Hout].
      rewrite (Hans err (eq_sym Heq)), (Hthrow err Hne) in Hrun.
      cbn in Hrun. by injection Hrun as <- _.
Qed.

(** ** Order intake running alone *)

Lemma run_checkFraud (b : OrderRequest) (w : World) :
  run (OrderService.checkFraud b) w = (Returned (fraud_answer w), after_fraud_call w).
Proof.
  unfold OrderService.checkFraud, fraud_answer.
  rewrite run_try_catch, run_bind, run_call. cbn [perform].
  destruct (head (fraud_api w)) as [[err|[[[raw|fr]|]]]|]; reflexivity.
Qed.

Lemma run_member (v : JsValue) (name : string) (w : World) :
  run (member v name) w =
  match v with
  | JsUndefined | JsNull => (Thrown TypeError, w)
  | JsObject fields => (Returned (own_property fields name), w)
  | _ => (Returned JsUndefined, w)
  end.
Proof. by destruct v. Qed.

Lemma run_rethrow {A} (p : Prog A) (w : World) :
  run (try_catch p (λ err, Throw err)) w = run p w.
Proof. rewrite run_try_catch. by destruct (run p w) as [[a|e] w']. Qed.

Lemma order_item_key (id : string) (b : OrderRequest) (ts : string) :
  order_item id b ts !! "orderId" = Some (AttrS id).
Proof. reflexivity. Qed.

Lemma put_order (id : string) (b : OrderRequest) (ts : string) (tbl : TableData) :
  put_item ORDERS_TABLE (order_item id b ts)
    (Some (attribute_not_exists "orderId")) tbl
  = match tbl !! id with
    | Some it =>
        if bool_decide (it !! "orderId" = None)
        then inr (<[id := order_item id b ts]> tbl)
        else inl ConditionalCheckFailedException
    | None => inr (<[id := order_item id b ts]> tbl)
    end.
Proof.
  unfold put_item. cbn [key_attr]. rewrite order_item_key.
  cbn [eval_condition_opt eval_condition]. by destruct (tbl !! id).
Qed.

Lemma handler_invalid (b : OrderRequest) (w : World) :
  valid b = false →
  run (OrderService.handler (request b)) w =
  (Returned (OrderService.mkResult 400
     (OrderService.ErrorBody "Missing required fields")), w).
Proof.
  intros Hv. unfold OrderService.handler, request, valid in *.
  rewrite run_try_catch, run_bind.
  cbn [OrderService.event_body OrderService.body_or_empty JSON_parse run].
  destruct (OrderService.truthy_string (req_customerId b)),
    (OrderService.truthy_string (req_productId b)),
    (OrderService.truthy_number (req_quantity b)),
    (OrderService.truthy_number (req_totalAmount b));
    try discriminate; reflexivity.
Qed.

Lemma handler_valid (b : OrderRequest) (w : World) :
  valid b = true →
  run (OrderService.handler (request b)) w =
  match gate (fraud_answer w) with
  | GateThrows => (Returned internal_error, after_fraud_call w)
  | GateFlags reason =>
      (Returned (OrderService.mkResult 422
         (OrderService.FlaggedBody "Order flagged for review" reason)),
       after_fraud_call w)
  | GatePasses =>
      match run (persist_and_publish b) (after_fraud_call w) with
      | (Returned res, w') => (Returned res, w')
      | (Thrown _, w') => (Returned internal_error, w')
      end
  end.
Proof.
  intros Hv. unfold OrderService.handler, request, valid in *.
  rewrite run_try_catch, run_bind.
  cbn [OrderService.event_body OrderService.body_or_empty JSON_parse run].
  destruct (OrderService.truthy_string (req_customerId b)),
    (OrderService.truthy_string (req_productId b)),
    (OrderService.truthy_number (req_quantity b)),
    (OrderService.truthy_number (req_totalAmount b));
    try discriminate.
  cbn [negb orb]. rewrite run_bind, run_checkFraud.
  assert (Hpass :
    ∀ flag, truthy flag = false →
      run (if truthy flag
           then let! reason := member (fraud_answer w) "reason" in
                Ret (OrderService.mkResult 422
                       (OrderService.FlaggedBody "Order flagged for review" reason))
           else persist_and_publish b) (after_fraud_call w)
      = run (persist_and_publish b) (after_fraud_call w)).
  { by intros flag ->. }
  rewrite run_bind, run_member.
  destruct (fraud_answer w) as [| |flag|n|s|items|fields]; cbn [gate];
    try reflexivity;
    try (change (run _ (after_fraud_call w))
           with (run (persist_and_publish b) (after_fraud_call w));
         by destruct (run _ (after_fraud_call w)) as [[res|err] w']).
  destruct (truthy (own_property fields "isFraudulent")); [reflexivity|].
  change (run _ (after_fraud_call w))
    with (run (persist_and_publish b) (after_fraud_call w)).
  by destruct (run _ (after_fraud_call w)) as [[res|err] w'].
Qed.

(** The store accepts the order: no record under the fresh identifier. *)
Lemma persist_fresh (b : OrderRequest) (w : World) :
  calm w → orders w !! next_uuid w = None →
  ∃ w', run (persist_and_publish b) w = (Returned (created (next_uuid w)), w') ∧
    calm w' ∧
    orders w'
      = <[next_uuid w := order_item (next_uuid w) b (next_time w)]> (orders w) ∧
    topic w' = (topic w ++
      [mkPublished (order_event (next_uuid w) b (next_time w)) "ORDER_CREATED"])%list ∧
    inventory w' = inventory w ∧ outbox w' = outbox w ∧
    fraud_api w' = fraud_api w ∧ uuids w' = tail (uuids w) ∧
    clock w' = tail (clock w).
Proof.
  intros Hw Hfresh. unfold persist_and_publish.
  rewrite run_bind, run_call. cbn [perform]. cbv beta iota.
  rewrite run_bind, run_call. cbn [perform clock]. cbv beta iota.
  fold (next_uuid w) (next_time w).
  rewrite run_bind, run_call. unfold insert_order at 1.
  rewrite perform_calm by done.
  cbn [sdk_effect table tick orders]. rewrite put_order, Hfresh.
  cbv beta iota. rewrite run_bind, run_call, perform_calm; [|done|].
  2:{ destruct w; by apply calm_tick in Hw. }
  cbn [sdk_effect]. cbv beta iota. cbn [run].
  eexists. split; [reflexivity|]. cbn.
  repeat split; try done.
  by apply calm_tick, calm_tick in Hw.
Qed.

(** A record is already stored under the identifier: the conditional put
    is rejected and nothing is published. *)
Lemma persist_taken (b : OrderRequest) (w : World) (it : Item) :
  calm w → orders w !! next_uuid w = Some it → it !! "orderId" ≠ None →
  ∃ w', run (persist_and_publish b) w =
          (Thrown ConditionalCheckFailedException, w') ∧
    calm w' ∧ orders w' = orders w ∧ topic w' = topic w ∧
    inventory w' = inventory w ∧ outbox w' = outbox w.
Proof.
  intros Hw Hold Hkey. unfold persist_and_publish.
  rewrite run_bind, run_call. cbn [perform]. cbv beta iota.
  rewrite run_bind, run_call. cbn [perform clock]. cbv beta iota.
  fold (next_uuid w) (next_time w).
  rewrite run_bind, run_call. unfold insert_order at 1.
  rewrite perform_calm by done.
  cbn [sdk_effect table tick orders]. rewrite put_order, Hold.
  rewrite bool_decide_eq_false_2 by done. cbv beta iota.
  eexists. split; [reflexivity|]. cbn.
  repeat split; try done. by apply calm_tick in Hw.
Qed.


(** The handler never throws: every exception ends in a 500 response. *)
Lemma handler_returns (ev : OrderService.APIGatewayProxyEvent) (w : World) :
  ∃ res w', run (OrderService.handler ev) w = (Returned res, w').
Proof.
  unfold OrderService.handler. rewrite run_try_catch.
  destruct (run _ w) as [[res|err] w']; cbn [run]; eauto.
Qed.

(** ** Notification running alone *)

Lemma run_generate_failed (order : OrderEvent) (w : World) :
  completion_failed (head (email_api w)) = true →
  run (NotifierWorker.generateEmailContent order) w =
  (Returned (NotifierWorker.fallback order), after_email_call w).
Proof.
  unfold NotifierWorker.generateEmailContent, completion_failed.
  rewrite run_try_catch, run_bind, run_call. cbn [perform].
  destruct (head (email_api w)) as [[err|[[[raw|c]|]]]|]; try reflexivity.
  discriminate.
Qed.

(** The [try] block of the notifier: the two properties are read, then the
    mail is sent. *)
Lemma run_send (emailContent : JsValue) (w : World) :
  run (try_catch
         (let! subject := member emailContent "subject" in
          let! text := member emailContent "body" in
          call (SendEmailCommand subject text))
         (λ err, Throw err)) w
  = match emailContent with
    | JsUndefined | JsNull => (Thrown TypeError, w)
    | JsObject fields =>
        run (call (SendEmailCommand (own_property fields "subject")
                     (own_property fields "body"))) w
    | _ => run (call (SendEmailCommand JsUndefined JsUndefined)) w
    end.
Proof. rewrite run_rethrow. by destruct emailContent. Qed.

Lemma append_nonempty (s t : string) : s ≠ "" → s +:+ t ≠ "".
Proof. destruct s; [done|]. intros _. discriminate. Qed.

(** ** Concurrent settlements: the inventory is written by guarded decrements only *)

Lemma inventory_safe_bind {A B} (p : Prog A) (f : A → Prog B) :
  inventory_safe p → (∀ a, inventory_safe (f a)) → inventory_safe (bind p f).
Proof.
  intros Hp Hf. induction p as [a|e|X c k IH]; cbn; [apply Hf|done|].
  destruct Hp as [Hc Hk]. split; [done|]. intros r. by apply IH.
Qed.

Lemma inventory_safe_try_catch {A} (p : Prog A) (h : Error → Prog A) :
  inventory_safe p → (∀ err, inventory_safe (h err)) →
  inventory_safe (try_catch p h).
Proof.
  intros Hp Hh. induction p as [a|e|X c k IH]; cbn; [done|apply Hh|].
  destruct Hp as [Hc Hk]. split; [done|]. intros r. by apply IH.
Qed.

Lemma inventory_safe_call {X} (c : Call X) : guarded c → inventory_safe (call c).
Proof. intros Hc. cbn. split; [done|]. by intros [e|x]. Qed.

Lemma inventory_safe_updateOrderStatus (oid st : string) :
  inventory_safe (updateOrderStatus oid st).
Proof.
  apply inventory_safe_bind; [by apply inventory_safe_call|].
  intros ts. by apply inventory_safe_call.
Qed.

Lemma inventory_safe_process_order (e : OrderEvent) :
  inventory_safe (process_order e).
Proof.
  apply inventory_safe_try_catch.
  - apply inventory_safe_bind; [by apply inventory_safe_call|]. intros item. cbv zeta.
    destruct (_ <? _); [apply inventory_safe_updateOrderStatus|].
    apply inventory_safe_bind; [|intros _; apply inventory_safe_updateOrderStatus].
    apply inventory_safe_call. cbn. by eexists.
  - intros err. unfold on_error.
    destruct (String.eqb _ _); [apply inventory_safe_updateOrderStatus|done].
Qed.

Lemma inventory_safe_handler (Records : list SQSRecord) :
  inventory_safe (handler Records).
Proof.
  induction Records as [|r rs IH]; [done|].
  cbn [handler]. apply inventory_safe_bind; [|done].
  apply inventory_safe_bind; [by destruct (body r)|]. intros m.
  apply inventory_safe_bind; [by destruct (Message m)|]. intros e.
  apply inventory_safe_process_order.
Qed.

Lemma handlers_inventory_safe (batches : list (list SQSRecord)) :
  Forall inventory_safe (handler <$> batches).
Proof.
  apply Forall_fmap, Forall_forall. intros b _. apply inventory_safe_handler.
Qed.

Lemma invocations_batches (evs : list OrderEvent) :
  invocations evs = handler <$> ((λ e, [record_of e]) <$> evs).
Proof. unfold invocations. by rewrite <- list_fmap_compose. Qed.

(** What a guarded call can do to the inventory at the moment it is made:
    nothing, or a decrement by [q] of a stored stock that is then at least
    [q]. *)
Lemma perform_guarded {X} (c : Call X) (w w' : World) (r : Error + X) :
  guarded c → perform c w = (r, w') →
  inventory w' = inventory w ∨
  ∃ p q, can_decrement (inventory w) p q = true ∧
         inventory w' = decremented (inventory w) p q.
Proof.
  intros Hc.
  assert (Hsdk : ∀ w0, inventory w0 = inventory w →
    sdk_effect c w0 = (r, w') →
    inventory w' = inventory w ∨
    ∃ p q, can_decrement (inventory w) p q = true ∧
           inventory w' = decremented (inventory w) p q).
  { intros w0 H0. destruct c; cbn [sdk_effect]; try (intros [= <- <-]; by left).
    - destruct t; [|done]. cbn [table].
      destruct (put_item _ _ _ _); intros [= <- <-]; by left.
    - destruct t; cbn [table].
      + destruct (update_item _ _ _ _ _); intros [= <- <-]; by left.
      + destruct Hc as (q & -> & ->). rewrite update_decrement, H0.
        destruct (can_decrement _ _ _) eqn:Hcan; intros [= <- <-]; [|by left].
        right. by exists k, q. }
  destruct c; cbn [perform]; try (intros [= <- <-]; by left);
    (destruct (head (faults w)) as [[e|]|];
     [intros [= <- <-]; by left | by apply Hsdk | by apply Hsdk]).
Qed.

Lemma perform_keeps_nonneg {X} (c : Call X) (w w' : World) (r : Error + X)
    (p : string) :
  guarded c → perform c w = (r, w') → 0 ≤ stock_of w p → 0 ≤ stock_of w' p.
Proof.
  intros Hc Hrun Hw. unfold stock_of in *.
  destruct (perform_guarded c w w' r Hc Hrun) as [->|(p' & q & Hcan & ->)];
    [done|]. by apply decrement_keeps_nonneg.
Qed.

Lemma sched_step_keeps_nonneg (st : list (Prog unit) * World) (i : nat)
    (p : string) :
  Forall inventory_safe st.1 → 0 ≤ stock_of st.2 p →
  Forall inventory_safe (sched_step st i).1 ∧ 0 ≤ stock_of (sched_step st i).2 p.
Proof.
  destruct st as [pool w]. cbn [fst snd]. intros Hpool Hw. unfold sched_step.
  cbn [fst snd]. destruct (pool !! i) as [t|] eqn:Ht; [|done].
  pose proof (Forall_lookup_1 _ _ _ _ Hpool Ht) as Hsafe.
  destruct t as [a|e|X c k]; cbn [step_thread fst snd].
  - split; [|done]. by rewrite list_insert_id.
  - split; [|done]. by rewrite list_insert_id.
  - destruct Hsafe as [Hc Hk]. destruct (perform c w) as [r w'] eqn:Hrun.
    cbn [fst snd]. split; [by apply Forall_insert|].
    by eapply perform_keeps_nonneg.
Qed.

Lemma run_sched_keeps_nonneg (sched : list nat) (st : list (Prog unit) * World)
    (p : string) :
  Forall inventory_safe st.1 → 0 ≤ stock_of st.2 p →
  Forall inventory_safe (run_sched sched st).1 ∧
  0 ≤ stock_of (run_sched sched st).2 p.
Proof.
  revert st. induction sched as [|i sched IH]; intros st Hpool Hw; [done|].
  cbn [run_sched foldl].
  destruct (sched_step_keeps_nonneg st i p Hpool Hw) as [H1 H2]. by apply IH.
Qed.

(** ** Concurrent settlements of distinct orders: the phases of an invocation *)

Lemma phase_step (e : OrderEvent) (ph : phase) (w : World) :
  calm w → done_ok e ph w →
  ∃ ph' w',
    step_thread (prog_of e ph) w = (prog_of e ph', w') ∧
    (rank ph' ≤ pred (rank ph))%nat ∧
    calm w' ∧ done_ok e ph' w' ∧
    (∀ oid, oid ≠ orderId e → orders w' !! oid = orders w !! oid) ∧
    (∀ p, stock_of w' p = stock_of w p - (taken_from p e ph' - taken_from p e ph)).
Proof.
  intros Hw Hdone. pose proof (calm_tick w Hw) as Hw1.
  assert (Hsame : ∀ ph' w',
            inventory w' = inventory w → taken e ph' = taken e ph →
            ∀ p, stock_of w' p
                 = stock_of w p - (taken_from p e ph' - taken_from p e ph)).
  { intros ph' w' Hi Ht p. unfold stock_of, taken_from. rewrite Hi, Ht.
    destruct (bool_decide _); lia. }
  destruct ph; cbn [prog_of].
  - (* AtRead *)
    cbn [handler process_record record_of body
           Message JSON_parse bind process_order
           settle try_catch call step_thread].
    rewrite perform_calm by done. cbn [sdk_effect table tick inventory].
    destruct (parseInt_stock (inventory w !! productId e)
              <? quantity e) eqn:Hlow.
    + exists FailDate, (tick w). cbn [prog_of in_try bind try_catch].
      rewrite Hlow. split; [done|]. split; [cbn; lia|].
      repeat split; try done. by apply Hsame.
    + exists AtDecrement, (tick w). cbn [prog_of in_try bind try_catch].
      rewrite Hlow. split; [done|]. split; [cbn; lia|].
      repeat split; try done. by apply Hsame.
  - (* FailDate *)
    eexists (FailWrite (next_time w)), _. split; [reflexivity|].
    split; [cbn; lia|]. repeat split; try done. by apply Hsame.
  - (* FailWrite *)
    cbn [in_try write_status call try_catch bind step_thread].
    rewrite perform_calm by done. cbn [sdk_effect table tick orders].
    rewrite update_status.
    eexists DoneFailed, _. split; [reflexivity|]. split; [cbn; lia|].
    split; [done|]. split; [apply (status_written _ _ _ (tick w))|].
    split. { intros oid Hne. cbn. by rewrite lookup_insert_ne. }
    by apply Hsame.
  - (* AtDecrement *)
    cbn [in_try call try_catch bind step_thread]. unfold decrement_stock.
    rewrite perform_calm by done. cbn [sdk_effect table tick inventory].
    rewrite update_decrement.
    destruct (can_decrement (inventory w) (productId e) (quantity e)) eqn:Hcan.
    + eexists ConfirmDate, _. split; [reflexivity|]. split; [cbn; lia|].
      repeat split; try done.
      intros p. unfold stock_of, taken_from. cbn [taken set_table inventory tick].
      case_bool_decide as Hp.
      * subst p. rewrite stock_decremented by done. lia.
      * rewrite stock_decremented_other by done. lia.
    + eexists RaceDate, _. split; [reflexivity|]. split; [cbn; lia|].
      repeat split; try done. by apply Hsame.
  - (* ConfirmDate *)
    eexists (ConfirmWrite (next_time w)), _. split; [reflexivity|].
    split; [cbn; lia|]. repeat split; try done. by apply Hsame.
  - (* ConfirmWrite *)
    cbn [in_try write_status call try_catch bind step_thread].
    rewrite perform_calm by done. cbn [sdk_effect table tick orders].
    rewrite update_status.
    eexists DoneConfirmed, _. split; [reflexivity|]. split; [cbn; lia|].
    split; [done|]. split; [apply (status_written _ _ _ (tick w))|].
    split. { intros oid Hne. cbn. by rewrite lookup_insert_ne. }
    by apply Hsame.
  - (* RaceDate *)
    eexists (RaceWrite (next_time w)), _. split; [reflexivity|].
    split; [cbn; lia|]. repeat split; try done. by apply Hsame.
  - (* RaceWrite *)
    cbn [write_status call bind step_thread].
    rewrite perform_calm by done. cbn [sdk_effect table tick orders].
    rewrite update_status.
    eexists DoneFailed, _. split; [reflexivity|]. split; [cbn; lia|].
    split; [done|]. split; [apply (status_written _ _ _ (tick w))|].
    split. { intros oid Hne. cbn. by rewrite lookup_insert_ne. }
    by apply Hsame.
  - exists DoneConfirmed, w. split; [done|]. split; [cbn; lia|].
    repeat split; try done. by apply Hsame.
  - exists DoneFailed, w. split; [done|]. split; [cbn; lia|].
    repeat split; try done. by apply Hsame.
Qed.

Lemma total_taken_insert (p : string) (evs : list OrderEvent) (phs : list phase)
    (i : nat) (e : OrderEvent) (ph ph' : phase) :
  evs !! i = Some e → phs !! i = Some ph →
  total_taken p evs (<[i := ph']> phs)
  = total_taken p evs phs + (taken_from p e ph' - taken_from p e ph).
Proof.
  revert phs i. induction evs as [|e0 evs IH]; intros [|ph0 phs] [|i]; try done.
  - intros [= ->] [= ->]. cbn. lia.
  - intros He Hph. change (<[S i:=ph']> (ph0 :: phs)) with (ph0 :: <[i:=ph']> phs).
    cbn [total_taken]. rewrite (IH phs i) by done. lia.
Qed.

Lemma total_taken_start (p : string) (evs : list OrderEvent) :
  total_taken p evs (replicate (length evs) AtRead) = 0.
Proof.
  induction evs as [|e evs IH]; [done|]. cbn. rewrite IH.
  unfold taken_from. by destruct (bool_decide _).
Qed.

Lemma invocations_start (evs : list OrderEvent) :
  invocations evs = zip_with prog_of evs (replicate (length evs) AtRead).
Proof. induction evs as [|e evs IH]; [done|]. cbn. by rewrite <- IH. Qed.

Lemma done_ok_frame (e : OrderEvent) (ph : phase) (w w' : World) :
  orders w' !! orderId e = orders w !! orderId e →
  done_ok e ph w → done_ok e ph w'.
Proof. intros H. unfold done_ok, status_of. by rewrite H. Qed.

Lemma pool_state_start (w0 : World) (evs : list OrderEvent) :
  calm w0 →
  pool_state w0 evs (replicate (length evs) AtRead) (invocations evs, w0).
Proof.
  intros Hw. split; [apply invocations_start|]. split; [done|]. split.
  - apply Forall2_same_length_lookup. split; [by rewrite length_replicate|].
    intros i e ph _ [-> _]%lookup_replicate. done.
  - intros p. rewrite total_taken_start. cbn [snd]. lia.
Qed.

(** A step of invocation [i] moves it to a next phase and leaves the other
    invocations where they are. *)
Lemma pool_state_step (w0 : World) (evs : list OrderEvent) (phs : list phase)
    (st : list (Prog unit) * World) (i : nat) (e : OrderEvent) (ph : phase) :
  NoDup (orderId <$> evs) → pool_state w0 evs phs st →
  evs !! i = Some e → phs !! i = Some ph →
  ∃ ph', (rank ph' ≤ pred (rank ph))%nat ∧
         pool_state w0 evs (<[i := ph']> phs) (sched_step st i).
Proof.
  intros Hnd (Hpool & Hw & Hdone & Hstock) He Hph. destruct st as [pool w].
  cbn [fst snd] in *. unfold sched_step. cbn [fst snd].
  assert (Ht : pool !! i = Some (prog_of e ph)).
  { rewrite Hpool. apply lookup_zip_with_Some. by exists e, ph. }
  rewrite Ht.
  destruct (phase_step e ph w Hw (Forall2_lookup_lr _ _ _ _ _ _ Hdone He Hph))
    as (ph' & w' & -> & Hrank & Hw' & Hdone' & Hframe & Hstock').
  exists ph'. split; [done|]. split; [|split; [done|split]]; cbn [fst snd].
  - rewrite Hpool, insert_zip_with. by rewrite (list_insert_id evs i e).
  - apply Forall2_same_length_lookup in Hdone as [Hlen Hdone].
    apply Forall2_same_length_lookup. split; [by rewrite length_insert|].
    intros j ej phj Hej Hphj. destruct (decide (i = j)) as [<-|Hne].
    + rewrite list_lookup_insert_eq in Hphj by (by eapply lookup_lt_Some).
      by simplify_eq.
    + rewrite list_lookup_insert_ne in Hphj by done.
      apply (done_ok_frame ej phj w); [|by eapply Hdone].
      apply Hframe. intros Heq. apply Hne.
      apply (NoDup_lookup (orderId <$> evs) i j (orderId e) Hnd);
        rewrite list_lookup_fmap; [by rewrite He | rewrite Hej; cbn; by f_equal].
  - intros p. rewrite Hstock', Hstock.
    rewrite (total_taken_insert p evs phs i e ph ph') by done. lia.
Qed.

Lemma pool_inv_start (w0 : World) (evs : list OrderEvent) :
  calm w0 → pool_inv w0 evs (invocations evs, w0).
Proof. intros Hw. eexists. by apply pool_state_start. Qed.

Lemma pool_inv_step (w0 : World) (evs : list OrderEvent)
    (st : list (Prog unit) * World) (i : nat) :
  NoDup (orderId <$> evs) → pool_inv w0 evs st → pool_inv w0 evs (sched_step st i).
Proof.
  intros Hnd (phs & Hst).
  destruct (st.1 !! i) as [t|] eqn:Ht.
  - pose proof Hst as (Hpool & _). rewrite Hpool in Ht.
    apply lookup_zip_with_Some in Ht as (e & ph & _ & He & Hph).
    destruct (pool_state_step w0 evs phs st i e ph Hnd Hst He Hph) as (ph' & _ & H).
    by eexists.
  - unfold sched_step. rewrite Ht. by exists phs.
Qed.

Lemma pool_inv_run (w0 : World) (evs : list OrderEvent) (sched : list nat)
    (st : list (Prog unit) * World) :
  NoDup (orderId <$> evs) → pool_inv w0 evs st →
  pool_inv w0 evs (run_sched sched st).
Proof.
  intros Hnd. revert st. induction sched as [|i sched IH]; intros st Hst; [done|].
  cbn [run_sched foldl]. apply IH. by apply pool_inv_step.
Qed.

Lemma finished_phase (e : OrderEvent) (ph : phase) :
  finished (prog_of e ph) = true → ph = DoneConfirmed ∨ ph = DoneFailed.
Proof. destruct ph; cbn; intros H; try discriminate; auto. Qed.

Lemma total_taken_finished (w : World) (p : string) (evs : list OrderEvent)
    (phs : list phase) :
  Forall2 (λ e ph, done_ok e ph w) evs phs →
  forallb finished (zip_with prog_of evs phs) = true →
  total_taken p evs phs = confirmed_total w p evs.
Proof.
  induction 1 as [|e ph evs phs Hd _ IH]; [done|].
  cbn [zip_with forallb total_taken confirmed_total].
  intros [Hfin Hrest]%andb_true_iff. rewrite (IH Hrest). f_equal.
  unfold taken_from, is_confirmed. destruct (bool_decide (productId e = p)); [|done].
  cbn [andb]. destruct (finished_phase e ph Hfin) as [-> | ->]; cbn in Hd |- *.
  - by rewrite bool_decide_eq_true_2.
  - rewrite bool_decide_eq_false_2; [done|]. by rewrite Hd.
Qed.

(** ** Every pool can be run to the end *)

Lemma sum_rank_insert (phs : list phase) (i : nat) (ph ph' : phase) :
  phs !! i = Some ph →
  (sum_rank (<[i := ph']> phs) + rank ph = sum_rank phs + rank ph')%nat.
Proof.
  revert i. induction phs as [|ph0 phs IH]; intros [|i]; try done.
  - intros [= ->]. cbn. lia.
  - intros Hph. change (<[S i:=ph']> (ph0 :: phs)) with (ph0 :: <[i:=ph']> phs).
    cbn [sum_rank foldr]. fold (sum_rank (<[i:=ph']> phs)) (sum_rank phs).
    specialize (IH i Hph). lia.
Qed.

Lemma unfinished_thread (pool : list (Prog unit)) :
  forallb finished pool = false →
  ∃ i t, pool !! i = Some t ∧ finished t = false.
Proof.
  induction pool as [|t pool IH]; [done|]. cbn [forallb].
  destruct (finished t) eqn:Ht.
  - intros (i & t' & Hi & Ht')%IH. by exists (S i), t'.
  - intros _. by exists 0%nat, t.
Qed.

Lemma unfinished_rank (e : OrderEvent) (ph : phase) :
  finished (prog_of e ph) = false → (1 ≤ rank ph)%nat.
Proof. destruct ph; cbn; intros H; try discriminate; lia. Qed.

Lemma pool_state_finishes (w0 : World) (evs : list OrderEvent) (n : nat) :
  NoDup (orderId <$> evs) →
  ∀ phs st, pool_state w0 evs phs st → (sum_rank phs ≤ n)%nat →
  ∃ sched, forallb finished (run_sched sched st).1 = true.
Proof.
  intros Hnd. induction n as [|n IH]; intros phs st Hst Hn;
    (destruct (forallb finished st.1) eqn:Hfin; [by exists []|]);
    apply unfinished_thread in Hfin as (i & t & Ht & Hun);
    pose proof Hst as (Hpool & _); rewrite Hpool in Ht;
    apply lookup_zip_with_Some in Ht as (e & ph & -> & He & Hph);
    apply unfinished_rank in Hun;
    destruct (pool_state_step w0 evs phs st i e ph Hnd Hst He Hph)
      as (ph' & Hrank & Hst');
    pose proof (sum_rank_insert phs i ph ph' Hph) as Hsum.
  - lia.
  - destruct (IH _ _ Hst') as (sched & Hsched); [lia|].
    by exists (i :: sched).
Qed.

(** ** Settlements with redelivery and failing calls: what is CONFIRMED was taken *)

Lemma accounts_bind {A B} (known : list OrderEvent) (h : Holding)
    (p : Prog A) (f : A → Prog B) :
  accounts known h p → (∀ a h', accounts known h' (f a)) →
  accounts known h (bind p f).
Proof.
  intros Hp Hf. revert h Hp. induction p as [a|e|X c k IH]; intros h Hp; cbn;
    [apply Hf|done|].
  destruct Hp as [Hc Hk]. split; [done|]. intros r. by apply IH.
Qed.

Lemma accounts_try_catch {A} (known : list OrderEvent) (h : Holding)
    (p : Prog A) (handle : Error → Prog A) :
  accounts known h p → (∀ err h', accounts known h' (handle err)) →
  accounts known h (try_catch p handle).
Proof.
  intros Hp Hh. revert h Hp. induction p as [a|e|X c k IH]; intros h Hp; cbn;
    [done|apply Hh|].
  destruct Hp as [Hc Hk]. split; [done|]. intros r. by apply IH.
Qed.

Lemma accounts_status_failed (known : list OrderEvent) (h : Holding)
    (oid st : string) :
  st ≠ "CONFIRMED" → accounts known h (updateOrderStatus oid st).
Proof.
  intros Hst. cbn. split; [done|]. intros [err|ts]; cbn; [done|].
  split; [|by intros [err|[]]]. exists st, ts. by repeat split.
Qed.

Lemma accounts_status_confirmed (known : list OrderEvent) (e : OrderEvent) :
  e ∈ known →
  accounts known (Some (productId e, quantity e))
    (updateOrderStatus (orderId e) "CONFIRMED").
Proof.
  intros He. cbn. split; [done|]. intros [err|ts]; cbn; [done|].
  split; [|by intros [err|[]]]. exists "CONFIRMED", ts.
  repeat split. intros _. by exists e.
Qed.

Lemma accounts_process_order (known : list OrderEvent) (h : Holding)
    (e : OrderEvent) :
  e ∈ known → 0 ≤ quantity e → accounts known h (process_order e).
Proof.
  intros He Hq. unfold process_order. apply accounts_try_catch.
  - unfold settle. cbn. split; [done|]. intros [err|cur]; cbn; [done|].
    destruct (parseInt_stock cur <? quantity e).
    + by apply accounts_status_failed.
    + cbn. split; [by exists (quantity e)|]. intros [err|[]]; cbn; [done|].
      by apply accounts_status_confirmed.
  - intros err h'. unfold on_error. destruct (String.eqb _ _); [|done].
    by apply accounts_status_failed.
Qed.

Lemma accounts_handler (known : list OrderEvent) (h : Holding)
    (Records : list SQSRecord) :
  Forall (λ e, 0 ≤ quantity e) known → batch_orders Records ⊆ known →
  accounts known h (handler Records).
Proof.
  intros Hq. revert h. induction Records as [|r rs IH]; intros h Hin; [done|].
  cbn [handler]. apply accounts_bind.
  - unfold process_record. unfold batch_orders in Hin. cbn [omap list_omap] in Hin.
    unfold order_of in Hin at 1.
    destruct (body r) as [raw|m]; cbn; [done|].
    destruct (Message m) as [raw|e]; cbn [JSON_parse bind]; [done|].
    assert (He : e ∈ known) by (apply Hin; left).
    apply accounts_process_order; [done|].
    by apply (Forall_forall (λ e, 0 ≤ quantity e) known).
  - intros _ h'. apply IH. intros e He. apply Hin.
    unfold batch_orders. cbn [omap list_omap].
    destruct (order_of r); [by right|done].
Qed.

Lemma held_total_insert (p : string) (hs : list Holding) (i : nat) (h h' : Holding) :
  hs !! i = Some h →
  held_total p (<[i := h']> hs) = held_total p hs - held p h + held p h'.
Proof.
  unfold held_total. revert i.
  induction hs as [|h0 hs IH]; intros [|i] Hi; try done.
  - injection Hi as ->. cbn [foldr]. change (<[0%nat:=h']> (h :: hs)) with (h' :: hs).
    cbn [foldr]. lia.
  - change (<[S i:=h']> (h0 :: hs)) with (h0 :: <[i:=h']> hs).
    cbn [foldr]. rewrite (IH i Hi). lia.
Qed.

Lemma held_total_nothing (p : string) (n : nat) :
  held_total p (replicate n None) = 0.
Proof.
  unfold held_total. induction n as [|n IH]; [done|]. cbn [replicate foldr held].
  by rewrite IH.
Qed.

Lemma held_total_nonneg (p : string) (hs : list Holding) :
  Forall (λ h, 0 ≤ held p h) hs → 0 ≤ held_total p hs.
Proof.
  unfold held_total. induction 1 as [|h hs Hh _ IH]; [done|]. cbn [foldr]. lia.
Qed.

(** *** Sums of quantities *)

Lemma confirmed_total_quantity (w : World) (p : string) (evs : list OrderEvent) :
  confirmed_total w p evs = quantity_total (is_confirmed w) p evs.
Proof. induction evs as [|e evs IH]; [done|]. cbn. by rewrite IH. Qed.

Lemma quantity_total_ext (g g' : OrderEvent → bool) (p : string)
    (evs : list OrderEvent) :
  (∀ e, e ∈ evs → g' e = g e) →
  quantity_total g' p evs = quantity_total g p evs.
Proof.
  induction evs as [|e evs IH]; intros H; [done|]. cbn [quantity_total].
  rewrite IH by (intros e' He'; apply H; by right). by rewrite (H e) by left.
Qed.

Lemma quantity_total_mono (g g' : OrderEvent → bool) (p : string)
    (evs : list OrderEvent) :
  Forall (λ e, 0 ≤ quantity e) evs →
  (∀ e, e ∈ evs → g e = true → g' e = true) →
  quantity_total g p evs ≤ quantity_total g' p evs.
Proof.
  induction 1 as [|e evs He _ IH]; intros H; [done|]. cbn [quantity_total].
  specialize (IH (λ e' He', H e' (list_elem_of_further _ _ _ He'))).
  pose proof (H e (list_elem_of_here _ _)) as Hg.
  destruct (bool_decide (productId e = p)); cbn [andb]; [|lia].
  destruct (g e); [rewrite Hg by done; lia|]. destruct (g' e); lia.
Qed.

(** Selecting one more order adds at most its quantity. *)
Lemma quantity_total_add (g g' : OrderEvent → bool) (p : string)
    (evs : list OrderEvent) (e : OrderEvent) :
  Forall (λ e, 0 ≤ quantity e) evs → NoDup (orderId <$> evs) → e ∈ evs →
  (∀ e', e' ∈ evs → orderId e' ≠ orderId e → g' e' = g e') →
  quantity_total g' p evs
  ≤ quantity_total g p evs + held p (Some (productId e, quantity e)).
Proof.
  intros Hq Hnd He Hother. assert (0 ≤ quantity e) as Hqe.
  { by apply (Forall_forall (λ e, 0 ≤ quantity e) evs). }
  induction Hq as [|e0 evs H0 Hq IH]; [by apply elem_of_nil in He|].
  cbn [fmap list_fmap] in Hnd. apply NoDup_cons in Hnd as [Hfresh Hnd].
  cbn [quantity_total held].
  destruct (decide (orderId e0 = orderId e)) as [Heq|Hne].
  - assert (e0 = e) as ->.
    { apply elem_of_cons in He as [->|Hin]; [done|].
      destruct Hfresh. rewrite Heq. by apply (list_elem_of_fmap_2 orderId). }
    rewrite (quantity_total_ext g g' p evs).
    + destruct (bool_decide (productId e = p)); cbn [andb];
        destruct (g' e), (g e); lia.
    + intros e' He'. apply Hother; [by right|]. intros Heq'. destruct Hfresh.
      rewrite <- Heq'. by apply (list_elem_of_fmap_2 orderId).
  - apply elem_of_cons in He as [->|Hin]; [done|].
    assert (IH' := IH Hnd Hin (λ e' He', Hother e' (list_elem_of_further _ _ _ He'))).
    cbn [held] in IH'. rewrite (Hother e0) by (done || left). lia.
Qed.

Lemma reached_now (sched : list nat) (st : list (Prog unit) * World)
    (e : OrderEvent) :
  is_confirmed st.2 e = true → reached_confirmed sched st e = true.
Proof. intros H. destruct sched; cbn [reached_confirmed]; by rewrite H. Qed.

Lemma reached_at_the_end (sched : list nat) (st : list (Prog unit) * World)
    (e : OrderEvent) :
  is_confirmed (run_sched sched st).2 e = true → reached_confirmed sched st e = true.
Proof.
  revert st. induction sched as [|i sched IH]; intros st H.
  - by apply reached_now.
  - cbn [reached_confirmed]. cbn [run_sched foldl] in H.
    rewrite (IH _ H). apply orb_true_r.
Qed.

(** *** One call, one step, a whole run *)

Lemma perform_accounted {X} (known : list OrderEvent) (p : string) (h : Holding)
    (g : OrderEvent → bool) (c : Call X) (w w' : World) (r : Error + X) :
  Forall (λ e, 0 ≤ quantity e) known → NoDup (orderId <$> known) →
  (∀ e, e ∈ known → is_confirmed w e = true → g e = true) →
  accounted known h c → 0 ≤ held p h → perform c w = (r, w') →
  0 ≤ held p (holding_after h c r) ∧
  quantity_total (λ e, g e || is_confirmed w' e) p known + stock_of w' p
    + held p (holding_after h c r)
  ≤ quantity_total g p known + stock_of w p + held p h.
Proof.
  intros Hq Hnd Hg Hc Hh Hrun.
  assert (Hkeep : ∀ w1 : World, orders w1 = orders w → inventory w1 = inventory w →
            quantity_total (λ e, g e || is_confirmed w1 e) p known + stock_of w1 p
            = quantity_total g p known + stock_of w p).
  { intros w1 Ho Hi. unfold stock_of. rewrite Hi. f_equal.
    apply quantity_total_ext. intros e He.
    assert (is_confirmed w1 e = is_confirmed w e) as ->.
    { unfold is_confirmed, status_of. by rewrite Ho. }
    destruct (is_confirmed w e) eqn:Hcon; [|apply orb_false_r].
    rewrite (Hg e He Hcon). done. }
  destruct c; cbn [accounted] in Hc; try done.
  - (* GetItemCommand *)
    cbn [holding_after]. split; [done|].
    apply perform_sdk_cases in Hrun as [(e & -> & ->)|[= <- <-]]; [| |done];
      by rewrite Hkeep.
  - (* UpdateItemCommand *)
    destruct t.
    + (* the status write *)
      destruct Hc as (st & ts & -> & -> & Hconfirmed).
      cbn [holding_after held]. split; [done|].
      apply perform_sdk_cases in Hrun as [(e & -> & ->)|Hrun]; [| |done].
      { rewrite Hkeep by done. lia. }
      cbn [sdk_effect table tick orders] in Hrun. rewrite update_status in Hrun.
      assert (Ho : orders w' = <[k := status_item k st ts (orders w !! k)]> (orders w))
        by (by injection Hrun as _ <-).
      assert (Hs : stock_of w' p = stock_of w p) by (by injection Hrun as _ <-).
      clear Hrun.
      assert (Hnew : status_of w' k = Some (AttrS st)).
      { unfold status_of. rewrite Ho, lookup_insert_eq. apply status_item_status. }
      assert (Hother : ∀ e, e ∈ known → orderId e ≠ k →
                g e || is_confirmed w' e = g e).
      { intros e He Hne.
        assert (is_confirmed w' e = is_confirmed w e) as ->.
        { unfold is_confirmed, status_of. by rewrite Ho, lookup_insert_ne. }
        destruct (is_confirmed w e) eqn:Hcon; [|apply orb_false_r].
        by rewrite (Hg e He Hcon). }
      rewrite Hs. destruct (decide (st = "CONFIRMED")) as [->|Hst].
      * destruct (Hconfirmed eq_refl) as (e & He & <- & ->).
        pose proof (quantity_total_add g (λ e, g e || is_confirmed w' e) p known e
                      Hq Hnd He Hother).
        lia.
      * rewrite (quantity_total_ext g); [lia|]. intros e He.
        destruct (decide (orderId e = k)) as [Heq|Hne]; [|by apply Hother].
        unfold is_confirmed. rewrite Heq, Hnew.
        rewrite bool_decide_eq_false_2 by (intros [= ?]; done).
        apply orb_false_r.
    + (* the conditional decrement *)
      destruct Hc as (q & Hq0 & -> & ->). cbn [holding_after decrement_quantity].
      apply perform_sdk_cases in Hrun as [(e & -> & ->)|Hrun]; [| |done].
      { cbn [held]. split; [done|]. rewrite Hkeep by done. lia. }
      cbn [sdk_effect table tick inventory] in Hrun.
      rewrite update_decrement in Hrun.
      destruct (can_decrement (inventory w) k q) eqn:Hcan.
      * assert (Ho : orders w' = orders w) by (by injection Hrun as _ <-).
        assert (Hi : inventory w' = decremented (inventory w) k q)
          by (by injection Hrun as _ <-).
        injection Hrun as <- _.
        cbn [held]. split; [by case_bool_decide|].
        assert (quantity_total (λ e, g e || is_confirmed w' e) p known
                = quantity_total g p known) as ->.
        { apply quantity_total_ext. intros e He.
          assert (is_confirmed w' e = is_confirmed w e) as ->.
          { unfold is_confirmed, status_of. by rewrite Ho. }
          destruct (is_confirmed w e) eqn:Hcon; [|apply orb_false_r].
          by rewrite (Hg e He Hcon). }
        unfold stock_of. rewrite Hi. case_bool_decide as Hp.
        -- subst k. rewrite stock_decremented by done. lia.
        -- rewrite stock_decremented_other by done. lia.
      * injection Hrun as <- <-.
        cbn [held]. split; [done|]. rewrite Hkeep by done. lia.
  - (* Date_toISOString *)
    cbn [holding_after]. split; [done|]. cbn [perform] in Hrun.
    injection Hrun as <- <-. by rewrite Hkeep.
Qed.

Lemma settled_within_step (known : list OrderEvent) (p : string) (bound : Z)
    (g : OrderEvent → bool) (st : list (Prog unit) * World) (i : nat) :
  Forall (λ e, 0 ≤ quantity e) known → NoDup (orderId <$> known) →
  settled_within known p bound g st →
  settled_within known p bound (λ e, g e || is_confirmed (sched_step st i).2 e)
    (sched_step st i).
Proof.
  intros Hq Hnd (hs & Hpool & Hg & Hsum).
  assert (Hidle : ∀ w, (∀ e, e ∈ known → is_confirmed w e = true → g e = true) →
            quantity_total (λ e, g e || is_confirmed w e) p known
            = quantity_total g p known).
  { intros w Hw. apply quantity_total_ext. intros e He.
    destruct (is_confirmed w e) eqn:Hcon; [|apply orb_false_r].
    by rewrite (Hw e He Hcon). }
  assert (Hin : ∀ w (e : OrderEvent), e ∈ known → is_confirmed w e = true →
            g e || is_confirmed w e = true).
  { intros w e _ ->. apply orb_true_r. }
  destruct st as [pool w]. unfold sched_step. cbn [fst snd] in *.
  destruct (pool !! i) as [t|] eqn:Ht.
  2:{ exists hs. cbn [fst snd]. split; [done|]. split; [apply Hin|].
      by rewrite Hidle. }
  destruct (Forall2_lookup_r _ _ _ _ _ Hpool Ht) as (h & Hh & Hheld & Hacc).
  destruct t as [a|e|X c k]; cbn [step_thread].
  - exists hs. cbn [fst snd]. rewrite list_insert_id by done.
    split; [done|]. split; [apply Hin|]. by rewrite Hidle.
  - exists hs. cbn [fst snd]. rewrite list_insert_id by done.
    split; [done|]. split; [apply Hin|]. by rewrite Hidle.
  - destruct Hacc as [Hc Hk]. destruct (perform c w) as [r w'] eqn:Hrun.
    destruct (perform_accounted known p h g c w w' r Hq Hnd Hg Hc Hheld Hrun)
      as [Hheld' Hstep].
    exists (<[i := holding_after h c r]> hs). cbn [fst snd]. split; [|split].
    + apply Forall2_insert; [done|]. by split.
    + apply Hin.
    + rewrite (held_total_insert p hs i h _ Hh). lia.
Qed.

Lemma settled_within_run (known : list OrderEvent) (p : string) (bound : Z)
    (sched : list nat) :
  Forall (λ e, 0 ≤ quantity e) known → NoDup (orderId <$> known) →
  ∀ g st, settled_within known p bound g st →
  quantity_total (λ e, g e || reached_confirmed sched st e) p known
  + stock_of (run_sched sched st).2 p ≤ bound.
Proof.
  intros Hq Hnd. induction sched as [|i sched IH]; intros g st Hst.
  - destruct Hst as (hs & Hpool & Hg & Hsum). cbn [run_sched foldl].
    assert (0 ≤ held_total p hs).
    { apply held_total_nonneg. clear -Hpool.
      induction Hpool as [|h t hs ts [Hh _] _ IH]; by constructor. }
    rewrite (quantity_total_ext g); [lia|]. intros e He.
    cbn [reached_confirmed]. rewrite orb_false_r.
    destruct (is_confirmed st.2 e) eqn:Hcon; [|apply orb_false_r].
    by rewrite (Hg e He Hcon).
  - pose proof Hst as (_ & _ & Hg & _).
    apply (settled_within_step known p bound g st i Hq Hnd) in Hst.
    apply IH in Hst. cbn [run_sched foldl].
    rewrite (quantity_total_ext
               (λ e, (g e || is_confirmed (sched_step st i).2 e)
                     || reached_confirmed sched (sched_step st i) e)); [done|].
    intros e He. cbn [reached_confirmed].
    destruct (is_confirmed st.2 e) eqn:Hcon.
    + rewrite (Hg e He Hcon). done.
    + cbn [orb]. destruct (g e); [done|]. cbn [orb].
      destruct (is_confirmed (sched_step st i).2 e) eqn:Hcon'; [|done].
      by rewrite (reached_now sched _ e Hcon').
Qed.

(** Whatever the batches, the schedule and the calls that fail: what reaches
    CONFIRMED of a product during the run, together with the stock that is
    left, is at most what was CONFIRMED and in stock at the start. *)
Lemma confirmed_within_stock (known : list OrderEvent) (p : string)
    (deliveries : list (list SQSRecord)) (sched : list nat) (w : World) :
  Forall (λ e, 0 ≤ quantity e) known → NoDup (orderId <$> known) →
  Forall (λ Records, batch_orders Records ⊆ known) deliveries →
  reached_total sched (handler <$> deliveries, w) p known
  + stock_of (run_sched sched (handler <$> deliveries, w)).2 p
  ≤ confirmed_total w p known + stock_of w p.
Proof.
  intros Hq Hnd Hdel. unfold reached_total.
  rewrite (quantity_total_ext
             (λ e, is_confirmed w e
                   || reached_confirmed sched (handler <$> deliveries, w) e)).
  2:{ intros e _. destruct (is_confirmed w e) eqn:Hcon; [|done].
      by apply reached_now. }
  apply (settled_within_run known p _ sched Hq Hnd (is_confirmed w)).
  exists (replicate (length deliveries) None). cbn [fst snd]. split; [|split].
  - clear -Hq Hdel. induction Hdel as [|b bs Hb _ IH]; [constructor|].
    cbn. constructor; [|done]. split; [done|]. by apply accounts_handler.
  - done.
  - rewrite held_total_nothing, confirmed_total_quantity. lia.
Qed.

Lemma confirmed_at_most_reached (known : list OrderEvent) (p : string)
    (sched : list nat) (st : list (Prog unit) * World) :
  Forall (λ e, 0 ≤ quantity e) known →
  confirmed_total (run_sched sched st).2 p known ≤ reached_total sched st p known.
Proof.
  intros Hq. rewrite confirmed_total_quantity. apply quantity_total_mono; [done|].
  intros e _. apply reached_at_the_end.
Qed.

(** * Part IV. The claims *)

Lemma calm_shop (p : string) (n : Z) (e : OrderEvent) : calm (shop p n e).
Proof. constructor. Qed.

(** ** Inventory settlement *)

(** C1, as stated, fails on the code for the equation between the final
    stock and the confirmed orders.  An event delivered twice is settled
    twice: with stock 10 and the one order o-1 of quantity 2, CONFIRMED, the
    final stock is 6 and not 10 - 2.  And a status write that fails after the
    decrement leaves the stock at 8 with no order CONFIRMED. *)
Lemma settlements_break_stock_accounting :
  (let w := shop "P-1" 10 order_P1 in
   let st := run_sched [0; 0; 0; 0; 1; 1; 1; 1]%nat
               (invocations [order_P1; order_P1], w) in
   forallb finished st.1 = true ∧
   map_to_list (orders w) = [("o-1", pending_item order_P1)] ∧
   fst <$> map_to_list (orders st.2) = ["o-1"] ∧
   status_of st.2 "o-1" = Some (AttrS "CONFIRMED") ∧
   confirmed_total st.2 "P-1" [order_P1] = 2 ∧
   stock_of w "P-1" = 10 ∧ stock_of st.2 "P-1" = 6 ∧
   stock_of st.2 "P-1" ≠ stock_of w "P-1" - confirmed_total st.2 "P-1" [order_P1]) ∧
  (let w := with_faults [None; None; Some (mkError "ServiceUnavailable")]
              (shop "P-1" 10 order_P1) in
   let st := run_sched [0; 0; 0; 0]%nat (invocations [order_P1], w) in
   st.1 = [Throw (mkError "ServiceUnavailable")] ∧
   status_of st.2 "o-1" = Some (AttrS "PENDING") ∧
   confirmed_total st.2 "P-1" [order_P1] = 0 ∧
   stock_of w "P-1" = 10 ∧ stock_of st.2 "P-1" = 8 ∧
   stock_of st.2 "P-1" ≠ stock_of w "P-1" - confirmed_total st.2 "P-1" [order_P1]).
Proof.
  split; vm_compute; repeat split; discriminate.
Qed.

(** C1, amended.  (a) Whatever the batches, the interleaving of the
    invocations and the failures of calls, a stock that is not negative at the
    start is not negative in any state that is reached.  (b) The worker writes
    the Inventory table by the conditional decrement and by nothing else, and
    that decrement goes through only when the stock stored at the moment of
    the write is at least the quantity (whatever was read before), taking
    exactly the quantity.  (c) Whatever the batches (an event may be delivered
    any number of times, alone or with others), the interleaving and the
    failures of calls, for orders with pairwise distinct identifiers whose
    quantities are not negative: the sum of the quantities of the orders of a
    product that reach CONFIRMED in some state of the run (whatever becomes of
    their status later), plus the stock that is left, is at most the sum for
    the orders CONFIRMED at the start plus the stock at the start; so when no
    order is CONFIRMED at the start, the sum of the quantities of the orders
    that reach CONFIRMED is at most the initial stock S, and at most S minus
    the stock that is left.  (d) For invocations on pairwise distinct orders, one
    record each, in which no call fails for its own reasons, once all
    invocations have finished: the final stock of each product is equal to
    the initial stock minus the sum of the quantities of its CONFIRMED orders,
    and that sum is at most the initial stock. *)
Theorem no_oversell
    (p : string)
    (batches : list (list SQSRecord)) (sched0 : list nat) (w0 : World)
    (Hnn0 : 0 ≤ stock_of w0 p)
    (known : list OrderEvent) (deliveries : list (list SQSRecord))
    (sched1 : list nat) (w1 : World)
    (Hknown : NoDup (orderId <$> known))
    (Hquantities : Forall (λ e, 0 ≤ quantity e) known)
    (Hdeliveries : Forall (λ Records, batch_orders Records ⊆ known) deliveries)
    (Hnn1 : 0 ≤ stock_of w1 p)
    (evs : list OrderEvent) (sched : list nat) (w : World)
    (Hdistinct : NoDup (orderId <$> evs))
    (Hw : calm w)
    (Hnn : 0 ≤ stock_of w p)
    (Hfin : forallb finished (run_sched sched (invocations evs, w)).1 = true) :
  0 ≤ stock_of (run_sched sched0 (handler <$> batches, w0)).2 p ∧
  Forall inventory_safe (handler <$> batches) ∧
  (∀ e w1,
     match perform (decrement_stock e) w1 with
     | (inr _, w1') =>
         can_decrement (inventory w1) (productId e) (quantity e) = true ∧
         quantity e ≤ stock_of w1 (productId e) ∧
         stock_of w1' (productId e) = stock_of w1 (productId e) - quantity e
     | (inl _, w1') => inventory w1' = inventory w1
     end) ∧
  (let reached := reached_total sched1 (handler <$> deliveries, w1) p known in
   let w1' := (run_sched sched1 (handler <$> deliveries, w1)).2 in
   reached + stock_of w1' p ≤ confirmed_total w1 p known + stock_of w1 p ∧
   confirmed_total w1' p known ≤ reached ∧
   0 ≤ stock_of w1' p ∧
   (confirmed_total w1 p known = 0 →
    reached ≤ stock_of w1 p - stock_of w1' p ∧ reached ≤ stock_of w1 p)) ∧
  (∃ complete,
     forallb finished (run_sched complete (invocations evs, w)).1 = true) ∧
  let w' := (run_sched sched (invocations evs, w)).2 in
  stock_of w' p = stock_of w p - confirmed_total w' p evs ∧
  confirmed_total w' p evs ≤ stock_of w p ∧
  0 ≤ stock_of w' p.
Proof.
  split.
  { apply run_sched_keeps_nonneg; [apply handlers_inventory_safe|done]. }
  split; [apply handlers_inventory_safe|].
  split; [apply perform_decrement|].
  split.
  { cbv zeta.
    pose proof (confirmed_within_stock known p deliveries sched1 w1
                  Hquantities Hknown Hdeliveries) as Hbound.
    assert (Hleft : 0 ≤ stock_of (run_sched sched1 (handler <$> deliveries, w1)).2 p).
    { apply run_sched_keeps_nonneg; [apply handlers_inventory_safe|done]. }
    split; [done|]. split; [by apply confirmed_at_most_reached|].
    split; [done|]. intros Hnone. lia. }
  split.
  { apply (pool_state_finishes w evs (sum_rank (replicate (length evs) AtRead))
             Hdistinct _ _ (pool_state_start w evs Hw)). lia. }
  cbv zeta.
  destruct (pool_inv_run w evs sched (invocations evs, w) Hdistinct
              (pool_inv_start w evs Hw)) as (phs & Hpool & _ & Hdone & Hstock).
  rewrite Hpool in Hfin.
  rewrite <- (total_taken_finished _ p evs phs Hdone Hfin).
  assert (Hfinal : 0 ≤ stock_of (run_sched sched (invocations evs, w)).2 p).
  { rewrite invocations_batches.
    apply run_sched_keeps_nonneg; [apply handlers_inventory_safe|done]. }
  rewrite Hstock in Hfinal |- *. split; [done|]. split; lia.
Qed.

Lemma no_oversell_witness :
  let e1 := mkOrderEvent "o-a" "CUST-1" "P-2" 1 50 "2024-01-01T00:00:00Z" in
  let e2 := mkOrderEvent "o-b" "CUST-2" "P-2" 1 50 "2024-01-01T00:00:00Z" in
  let p := "P-2" in
  let batches := [[record_of e1; record_of e1]; [record_of e2]] in
  let sched0 := [0; 1; 0; 1; 0; 1; 0; 0; 0; 0; 0]%nat in
  let w0 := with_faults [None; None; Some (mkError "ServiceUnavailable")]
              (shop "P-2" 1 e1) in
  let known := [e1; e2] in
  let deliveries := [[record_of e1; record_of e2]; [record_of e1]; [record_of e2]] in
  let sched1 := [0; 1; 2; 0; 1; 2; 0; 1; 2; 0; 1; 2; 0; 0; 0; 0]%nat in
  let w1 := with_faults [None; None; None; None; Some (mkError "ServiceUnavailable")]
              (shop "P-2" 3 e1) in
  let evs := [e1; e2] in
  let sched := [0; 1; 0; 1; 0; 0; 1; 1]%nat in
  let w := shop "P-2" 1 e1 in
  0 ≤ stock_of (run_sched sched0 (handler <$> batches, w0)).2 p ∧
  Forall inventory_safe (handler <$> batches) ∧
  (∀ e w1,
     match perform (decrement_stock e) w1 with
     | (inr _, w1') =>
         can_decrement (inventory w1) (productId e) (quantity e) = true ∧
         quantity e ≤ stock_of w1 (productId e) ∧
         stock_of w1' (productId e) = stock_of w1 (productId e) - quantity e
     | (inl _, w1') => inventory w1' = inventory w1
     end) ∧
  (let reached := reached_total sched1 (handler <$> deliveries, w1) p known in
   let w1' := (run_sched sched1 (handler <$> deliveries, w1)).2 in
   reached + stock_of w1' p ≤ confirmed_total w1 p known + stock_of w1 p ∧
   confirmed_total w1' p known ≤ reached ∧
   0 ≤ stock_of w1' p ∧
   (confirmed_total w1 p known = 0 →
    reached ≤ stock_of w1 p - stock_of w1' p ∧ reached ≤ stock_of w1 p)) ∧
  (∃ complete,
     forallb finished (run_sched complete (invocations evs, w)).1 = true) ∧
  let w' := (run_sched sched (invocations evs, w)).2 in
  stock_of w' p = stock_of w p - confirmed_total w' p evs ∧
  confirmed_total w' p evs ≤ stock_of w p ∧
  0 ≤ stock_of w' p.
Proof.
  intros e1 e2 p batches sched0 w0 known deliveries sched1 w1 evs sched w.
  apply (no_oversell p batches sched0 w0 ltac:(vm_compute; discriminate)
           known deliveries sched1 w1).
  - refine (bool_decide_unpack (NoDup _) _). vm_compute. exact I.
  - repeat constructor; vm_compute; discriminate.
  - constructor; [|constructor; [|constructor; [|constructor]]];
      intros e He; unfold batch_orders in He; cbn in He;
      repeat (apply elem_of_cons in He as [->|He]);
      try (by apply elem_of_nil in He); unfold known; repeat constructor.
  - vm_compute. discriminate.
  - refine (bool_decide_unpack (NoDup _) _). vm_compute. exact I.
  - constructor.
  - vm_compute. discriminate.
  - vm_compute. reflexivity.
Defined.




(** ** Intake: the conditional insert *)

(** C3. Two inserts into the Orders table under the same orderId, the first
    one finding no record: the first is stored, the second is rejected by its
    condition (a ConditionalCheckFailedException, which the handler answers
    with 500) and overwrites nothing; the table holds the one record, with
    the fields of the first write, and one event was published. *)
Theorem second_insert_is_rejected
    (b1 b2 : OrderRequest) (w : World) (id : string) (ids : list string)
    (Hv1 : valid b1 = true) (Hv2 : valid b2 = true) (Hw : calm w)
    (Hf1 : gate (fraud_answer w) = GatePasses)
    (Hf2 : gate (fraud_answer (after_fraud_call w)) = GatePasses)
    (Hids : uuids w = id :: id :: ids) (Hfresh : orders w !! id = None) :
  ∃ w1 w2,
    run (OrderService.handler (request b1)) w = (Returned (created id), w1) ∧
    orders w1 = <[id := order_item id b1 (next_time w)]> (orders w) ∧
    run (OrderService.handler (request b2)) w1 = (Returned internal_error, w2) ∧
    (∀ ts, fst (perform (insert_order id b2 ts) w1)
           = inl ConditionalCheckFailedException) ∧
    orders w2 = orders w1 ∧
    orders w2 !! id = Some (order_item id b1 (next_time w)) ∧
    topic w2 = (topic w ++
      [mkPublished (order_event id b1 (next_time w)) "ORDER_CREATED"])%list.
Proof.
  assert (Hid : next_uuid (after_fraud_call w) = id).
  { unfold next_uuid. cbn [after_fraud_call uuids]. by rewrite Hids. }
  destruct (persist_fresh b1 (after_fraud_call w)) as
    (w1 & Hrun1 & Hw1 & Ho1 & Ht1 & _ & _ & Hapi1 & Hu1 & _);
    [done| by rewrite Hid |].
  rewrite Hid in Hrun1, Ho1, Ht1.
  change (next_time (after_fraud_call w)) with (next_time w) in Ho1, Ht1.
  cbn [after_fraud_call orders topic uuids fraud_api] in Ho1, Ht1, Hapi1, Hu1.
  assert (Hans : fraud_answer w1 = fraud_answer (after_fraud_call w)).
  { unfold fraud_answer. by rewrite Hapi1. }
  assert (Hid1 : next_uuid (after_fraud_call w1) = id).
  { unfold next_uuid. cbn [after_fraud_call uuids]. by rewrite Hu1, Hids. }
  assert (Hold : orders (after_fraud_call w1) !! id
                 = Some (order_item id b1 (next_time w))).
  { cbn [after_fraud_call orders]. by rewrite Ho1, lookup_insert_eq. }
  destruct (persist_taken b2 (after_fraud_call w1) (order_item id b1 (next_time w)))
    as (w2 & Hrun2 & _ & Ho2 & Ht2 & _); [done| by rewrite Hid1 | done |].
  cbn [after_fraud_call orders topic] in Ho2, Ht2.
  exists w1, w2.
  split. { rewrite handler_valid by done. by rewrite Hf1, Hrun1. }
  split; [done|].
  split. { rewrite handler_valid by done. by rewrite Hans, Hf2, Hrun2. }
  split. { intros ts. unfold insert_order. rewrite perform_calm by done.
           cbn [sdk_effect table tick orders].
           rewrite put_order, Ho1, lookup_insert_eq.
           by rewrite bool_decide_eq_false_2. }
  split; [done|]. split. { by rewrite Ho2, Ho1, lookup_insert_eq. }
  by rewrite Ht2, Ht1.
Qed.

Lemma second_insert_is_rejected_witness :
  let w := front [] ["id-1"; "id-1"] in
  ∃ w1 w2,
    run (OrderService.handler (request request_P1)) w
      = (Returned (created "id-1"), w1) ∧
    orders w1 = <["id-1" := order_item "id-1" request_P1 (next_time w)]> (orders w) ∧
    run (OrderService.handler (request request_bulk)) w1
      = (Returned internal_error, w2) ∧
    (∀ ts, fst (perform (insert_order "id-1" request_bulk ts) w1)
           = inl ConditionalCheckFailedException) ∧
    orders w2 = orders w1 ∧
    orders w2 !! "id-1" = Some (order_item "id-1" request_P1 (next_time w)) ∧
    topic w2 = (topic w ++
      [mkPublished (order_event "id-1" request_P1 (next_time w))
         "ORDER_CREATED"])%list.
Proof.
  apply (second_insert_is_rejected request_P1 request_bulk
           (front [] ["id-1"; "id-1"]) "id-1" []); try reflexivity.
  constructor.
Defined.

(** ** Inventory settlement: insufficient stock, lost races, failures *)

(** C4. A delivered order event whose product has, at the read, less stock
    than the quantity asked for (an absent item reading as 0): the worker
    leaves the inventory as it is, sets the order's status to
    FAILED_INSUFFICIENT_STOCK and goes on normally with the rest of the
    batch; alone in its batch, the invocation returns without throwing. *)
Theorem insufficient_stock_fails_order
    (e : OrderEvent) (rest : list SQSRecord) (w : World)
    (Hw : calm w) (Hlow : stock_of w (productId e) < quantity e) :
  ∃ w', run (handler (record_of e :: rest)) w = run (handler rest) w' ∧
    run (handler [record_of e]) w = (Returned tt, w') ∧
    inventory w' = inventory w ∧
    status_of w' (orderId e) = Some (AttrS "FAILED_INSUFFICIENT_STOCK").
Proof.
  rewrite !run_handler_cons.
  destruct (run_process_order e w Hw) as (w' & -> & _ & Ho & Hi & _).
  exists w'. unfold settlement_status, settlement_inventory in *.
  rewrite (stock_low_cannot_decrement w e Hlow) in Ho, Hi.
  repeat split; try done.
  unfold status_of. rewrite Ho, lookup_insert_eq. cbn [mbind option_bind].
  apply status_item_status.
Qed.

Lemma insufficient_stock_fails_order_witness :
  ∃ w', run (handler [record_of order_P3]) (shop "P-3" 5 order_P3)
        = run (handler []) w' ∧
    run (handler [record_of order_P3]) (shop "P-3" 5 order_P3) = (Returned tt, w') ∧
    inventory w' = inventory (shop "P-3" 5 order_P3) ∧
    status_of w' "o-3" = Some (AttrS "FAILED_INSUFFICIENT_STOCK").
Proof.
  apply (insufficient_stock_fails_order order_P3 [] (shop "P-3" 5 order_P3)).
  - apply calm_shop.
  - vm_compute. reflexivity.
Defined.

(** C5. An invocation that has read enough stock and whose conditional
    decrement is then rejected, the stock having gone in between, sets the
    order to FAILED_INSUFFICIENT_STOCK and returns normally, the inventory
    staying as it is.  Every other failure leaves the handler as an
    exception: a call that fails with an error that is not a conditional check
    failure makes the handler throw that error, and so does a record that does
    not parse. *)
Theorem lost_race_fails_order_other_failures_propagate
    (e : OrderEvent) (w1 w2 : World)
    (Hw1 : calm w1) (Hw2 : calm w2)
    (Hread : quantity e ≤ stock_of w1 (productId e))
    (Hlost : can_decrement (inventory w2) (productId e) (quantity e) = false) :
  (∃ w',
     run (step_thread (handler [record_of e]) w1).1 w2 = (Returned tt, w') ∧
     fst (perform (decrement_stock e) w2) = inl ConditionalCheckFailedException ∧
     status_of w' (orderId e) = Some (AttrS "FAILED_INSUFFICIENT_STOCK") ∧
     inventory w' = inventory w2) ∧
  (∀ Records w out w',
     run (handler Records) w = (out, w') →
     ∃ used, faults w = (used ++ faults w')%list ∧
       ∀ err, Some err ∈ used →
              err_name err ≠ "ConditionalCheckFailedException" →
              out = Thrown err) ∧
  (∀ raw rest w,
     run (handler (mkSQSRecord (NotJson raw) :: rest)) w = (Thrown SyntaxError, w) ∧
     run (handler (mkSQSRecord (IsJson (mkSnsEnvelope (NotJson raw))) :: rest)) w
       = (Thrown SyntaxError, w)).
Proof.
  split; [|split].
  - cbn [handler process_record record_of body Message JSON_parse bind
           process_order settle try_catch call step_thread].
    rewrite perform_calm by done. cbn [sdk_effect table tick inventory fst].
    assert (Hge : (parseInt_stock (inventory w1 !! productId e) <? quantity e)
                  = false)
      by (unfold stock_of in Hread; lia).
    rewrite run_bind, run_try_catch. cbn [bind]. rewrite Hge. cbn [run].
    unfold decrement_stock. rewrite perform_calm by done.
    cbn [sdk_effect table tick inventory]. rewrite update_decrement, Hlost.
    cbn [bind run on_error err_name ConditionalCheckFailedException String.eqb
           Ascii.eqb Bool.eqb fst].
    destruct (run_updateOrderStatus (orderId e) "FAILED_INSUFFICIENT_STOCK"
                (tick w2)) as (w' & -> & _ & Ho & Hi & _); [by apply calm_tick|].
    exists w'. repeat split; try done.
    unfold status_of. rewrite Ho, lookup_insert_eq. cbn [mbind option_bind].
    apply status_item_status.
  - intros Records w out w'. apply propagates_run, propagates_handler.
  - intros raw rest w. split; reflexivity.
Qed.

Lemma lost_race_fails_order_other_failures_propagate_witness :
  let e := mkOrderEvent "o-2" "CUST-2" "P-2" 1 50 "2024-01-01T00:00:00Z" in
  let w1 := shop "P-2" 1 e in
  let w2 := after_sale w1 "P-2" 0 in
  (∃ w',
     run (step_thread (handler [record_of e]) w1).1 w2 = (Returned tt, w') ∧
     fst (perform (decrement_stock e) w2) = inl ConditionalCheckFailedException ∧
     status_of w' (orderId e) = Some (AttrS "FAILED_INSUFFICIENT_STOCK") ∧
     inventory w' = inventory w2) ∧
  (∀ Records w out w',
     run (handler Records) w = (out, w') →
     ∃ used, faults w = (used ++ faults w')%list ∧
       ∀ err, Some err ∈ used →
              err_name err ≠ "ConditionalCheckFailedException" →
              out = Thrown err) ∧
  (∀ raw rest w,
     run (handler (mkSQSRecord (NotJson raw) :: rest)) w = (Thrown SyntaxError, w) ∧
     run (handler (mkSQSRecord (IsJson (mkSnsEnvelope (NotJson raw))) :: rest)) w
       = (Thrown SyntaxError, w)).
Proof.
  intros e w1 w2.
  apply (lost_race_fails_order_other_failures_propagate e w1 w2).
  - constructor.
  - constructor.
  - vm_compute. discriminate.
  - vm_compute. reflexivity.
Defined.

(** The race of two invocations for the last unit: both read stock 1, the
    first decrement wins, the second is rejected. *)
Example concurrent_race :
  let e1 := mkOrderEvent "o-a" "CUST-1" "P-2" 1 50 "2024-01-01T00:00:00Z" in
  let e2 := mkOrderEvent "o-b" "CUST-2" "P-2" 1 50 "2024-01-01T00:00:00Z" in
  let st := run_sched [0; 1; 0; 1; 0; 0; 1; 1]%nat
              ([handler [record_of e1]; handler [record_of e2]], shop "P-2" 1 e1) in
  forallb finished st.1 = true ∧
  status_of st.2 "o-a" = Some (AttrS "CONFIRMED") ∧
  status_of st.2 "o-b" = Some (AttrS "FAILED_INSUFFICIENT_STOCK") ∧
  stock_of st.2 "P-2" = 0.
Proof. vm_compute. done. Qed.

(** ** Intake: the Risk Gate *)

(** C6, as stated, fails on the code for a malformed response that still
    parses.  A content that parses to null is returned by [checkFraud] as it
    is, reading its isFraudulent throws, and the request, valid and with the
    store ready to take it, is answered 500 with nothing stored.  A content
    whose isFraudulent is the string 'false' is truthy, and the request is
    answered 422. *)
Lemma parsed_response_is_not_failed_open :
  (let w := front [answer JsNull] ["id-1"] in
   valid request_P1 = true ∧ calm w ∧ orders w !! next_uuid w = None ∧
   run (OrderService.checkFraud request_P1) w = (Returned JsNull, after_fraud_call w) ∧
   run (OrderService.checkFraud request_P1) w
     ≠ (Returned (verdict false "fraud check unavailable"), after_fraud_call w) ∧
   run (OrderService.handler (request request_P1)) w
     = (Returned (OrderService.mkResult 500
          (OrderService.ErrorBody "Internal server error")), after_fraud_call w) ∧
   orders (after_fraud_call w) = ∅ ∧ topic (after_fraud_call w) = []) ∧
  (let w := front [answer (JsObject [("isFraudulent", JsString "false")])] ["id-1"] in
   valid request_P1 = true ∧ calm w ∧ orders w !! next_uuid w = None ∧
   run (OrderService.handler (request request_P1)) w
     = (Returned (OrderService.mkResult 422
          (OrderService.FlaggedBody "Order flagged for review" JsUndefined)),
        after_fraud_call w) ∧
   orders (after_fraud_call w) = ∅ ∧ topic (after_fraud_call w) = []).
Proof.
  split; cbv zeta; repeat split; try reflexivity; try constructor.
  vm_compute. discriminate.
Qed.

(** C6, amended.  (a) A request with valid fields whose fraud-scoring call
    fails by throwing (a timeout, a transport failure), by a response that
    lacks the content, or by a content that is not JSON: [checkFraud] returns
    isFraudulent = false with the reason 'fraud check unavailable', the
    handler goes on exactly as for an order that was not flagged, and answers
    201 when the store takes the order.  (b) A content that parses is
    returned as parsed, whatever it is, and the handler reads it as it is:
    null is answered 500, a truthy isFraudulent is answered 422 with whatever
    reason the value has, and every other value (a primitive, an array, an
    object without a truthy isFraudulent) lets the order through as if it
    was not flagged.  (c) The handler never throws, whatever the request and
    the world. *)
Theorem fraud_check_fails_open
    (b : OrderRequest) (w : World)
    (Hv : valid b = true)
    (Hfail : completion_failed (head (fraud_api w)) = true)
    (Hw : calm w)
    (Hfresh : orders w !! next_uuid w = None)
    (v : JsValue) (w2 : World)
    (Hparsed : head (fraud_api w2) = Some (answer v)) :
  run (OrderService.checkFraud b) w
    = (Returned (JsObject [("isFraudulent", JsBoolean false);
                           ("reason", JsString "fraud check unavailable")]),
       after_fraud_call w) ∧
  run (OrderService.handler (request b)) w
    = match run (persist_and_publish b) (after_fraud_call w) with
      | (Returned res, w') => (Returned res, w')
      | (Thrown _, w') => (Returned internal_error, w')
      end ∧
  (∃ w', run (OrderService.handler (request b)) w
           = (Returned (created (next_uuid w)), w') ∧
         orders w' !! next_uuid w
           = Some (order_item (next_uuid w) b (next_time w))) ∧
  run (OrderService.checkFraud b) w2 = (Returned v, after_fraud_call w2) ∧
  run (OrderService.handler (request b)) w2
    = match v with
      | JsUndefined | JsNull => (Returned internal_error, after_fraud_call w2)
      | JsObject fields =>
          if truthy (own_property fields "isFraudulent")
          then (Returned (OrderService.mkResult 422
                  (OrderService.FlaggedBody "Order flagged for review"
                     (own_property fields "reason"))), after_fraud_call w2)
          else match run (persist_and_publish b) (after_fraud_call w2) with
               | (Returned res, w') => (Returned res, w')
               | (Thrown _, w') => (Returned internal_error, w')
               end
      | _ => match run (persist_and_publish b) (after_fraud_call w2) with
             | (Returned res, w') => (Returned res, w')
             | (Thrown _, w') => (Returned internal_error, w')
             end
      end ∧
  (∀ ev w0, ∃ res w', run (OrderService.handler ev) w0 = (Returned res, w')).
Proof.
  assert (Hans : fraud_answer w = fail_open).
  { unfold fraud_answer, completion_failed in *.
    destruct (head (fraud_api w)) as [[err|[[[raw|fr]|]]]|]; try done. }
  assert (Hans2 : fraud_answer w2 = v).
  { unfold fraud_answer. by rewrite Hparsed. }
  split. { by rewrite run_checkFraud, Hans. }
  split. { rewrite handler_valid by done. by rewrite Hans. }
  split.
  { destruct (persist_fresh b (after_fraud_call w)) as (w' & Hrun & _ & Ho & _);
      [done..|].
    exists w'. rewrite handler_valid by done. rewrite Hans.
    cbn [gate fail_open own_property String.eqb Ascii.eqb Bool.eqb truthy].
    rewrite Hrun. split; [done|].
    rewrite Ho. apply lookup_insert_eq. }
  split. { by rewrite run_checkFraud, Hans2. }
  split; [|apply handler_returns].
  rewrite handler_valid by done. rewrite Hans2.
  destruct v as [| |flag|n|s|items|fields]; cbn [gate]; try reflexivity.
  by destruct (truthy (own_property fields "isFraudulent")).
Qed.

Lemma fraud_check_fails_open_witness :
  let w := front [inl TimeoutError] ["id-1"] in
  let v := JsObject [("isFraudulent", JsBoolean false); ("riskScore", JsNumber 3)] in
  let w2 := front [answer v] ["id-1"] in
  run (OrderService.checkFraud request_P1) w
    = (Returned (JsObject [("isFraudulent", JsBoolean false);
                           ("reason", JsString "fraud check unavailable")]),
       after_fraud_call w) ∧
  run (OrderService.handler (request request_P1)) w
    = match run (persist_and_publish request_P1) (after_fraud_call w) with
      | (Returned res, w') => (Returned res, w')
      | (Thrown _, w') => (Returned internal_error, w')
      end ∧
  (∃ w', run (OrderService.handler (request request_P1)) w
           = (Returned (created (next_uuid w)), w') ∧
         orders w' !! next_uuid w
           = Some (order_item (next_uuid w) request_P1 (next_time w))) ∧
  run (OrderService.checkFraud request_P1) w2 = (Returned v, after_fraud_call w2) ∧
  run (OrderService.handler (request request_P1)) w2
    = match run (persist_and_publish request_P1) (after_fraud_call w2) with
      | (Returned res, w') => (Returned res, w')
      | (Thrown _, w') => (Returned internal_error, w')
      end ∧
  (∀ ev w0, ∃ res w', run (OrderService.handler ev) w0 = (Returned res, w')).
Proof.
  intros w v w2.
  apply (fraud_check_fails_open request_P1 w eq_refl eq_refl
           ltac:(constructor) eq_refl v w2 eq_refl).
Defined.

(** C7. A request that the Risk Gate flags (the value it returns has a
    truthy isFraudulent, [true] in particular) is answered 422 with the error
    and the reason of that value; the Orders table is not written and no
    event is published. *)
Theorem flagged_order_is_rejected
    (b : OrderRequest) (w w1 : World) (fields : list (string * JsValue))
    (Hv : valid b = true)
    (Hgate : run (OrderService.checkFraud b) w = (Returned (JsObject fields), w1))
    (Hflag : truthy (own_property fields "isFraudulent") = true) :
  ∃ w',
    run (OrderService.handler (request b)) w
      = (Returned (OrderService.mkResult 422
           (OrderService.FlaggedBody "Order flagged for review"
              (own_property fields "reason"))), w') ∧
    orders w' = orders w ∧ topic w' = topic w ∧
    inventory w' = inventory w ∧ outbox w' = outbox w ∧ faults w' = faults w.
Proof.
  rewrite run_checkFraud in Hgate. injection Hgate as Hans <-.
  exists (after_fraud_call w). rewrite handler_valid by done.
  rewrite Hans. cbn [gate]. by rewrite Hflag.
Qed.

Lemma flagged_order_is_rejected_witness :
  let w := front [answer (verdict true "quantity above 100")] ["id-1"] in
  ∃ w',
    run (OrderService.handler (request request_bulk)) w
      = (Returned (OrderService.mkResult 422
           (OrderService.FlaggedBody "Order flagged for review"
              (JsString "quantity above 100"))), w') ∧
    orders w' = orders w ∧ topic w' = topic w ∧
    inventory w' = inventory w ∧ outbox w' = outbox w ∧ faults w' = faults w.
Proof.
  intros w.
  apply (flagged_order_is_rejected request_bulk w (after_fraud_call w)
           [("isFraudulent", JsBoolean true);
            ("reason", JsString "quantity above 100")]);
    reflexivity.
Defined.

(** ** Notification *)

(** C8. When the content-generation call fails (it throws or times out, its
    response lacks the content, or the content is not JSON), the worker still
    has a subject and a body, both non-empty: the subject is
    'Order Confirmation #' followed by the order id, the body is the sentence
    below around the quantity, the product id and the total of the event, and
    nothing else of the event or of the world enters them.  Producing them
    makes no call: every failing answer of the completion call is followed at
    once by the return of the template.  And these are what is handed to the
    mail transport. *)
Theorem notification_falls_back
    (order : OrderEvent) (rest : list SQSRecord) (w : World)
    (Hfail : completion_failed (head (email_api w)) = true)
    (Hw : calm w) :
  let subject := "Order Confirmation #" +:+ orderId order in
  let text :=
    "Thank you for your order! Your order for " +:+ pretty (quantity order)
      +:+ "x " +:+ productId order +:+ " ($" +:+ pretty (totalAmount order)
      +:+ ") has been received and is being processed." in
  let template := JsObject [("subject", JsString subject); ("body", JsString text)] in
  run (NotifierWorker.generateEmailContent order) w
    = (Returned template, after_email_call w) ∧
  subject ≠ "" ∧ text ≠ "" ∧
  (∃ k, NotifierWorker.generateEmailContent order = Vis (email_completion order) k ∧
        (∀ err, k (inl err) = Ret template) ∧
        k (inr (mkAxiosResponse None)) = Ret template ∧
        (∀ raw, k (inr (mkAxiosResponse (Some (NotJson raw)))) = Ret template)) ∧
  ∃ w',
    run (NotifierWorker.handler (record_of order :: rest)) w
      = run (NotifierWorker.handler rest) w' ∧
    outbox w' = (outbox w ++ [mkEmail (JsString subject) (JsString text)])%list ∧
    orders w' = orders w ∧ inventory w' = inventory w ∧ topic w' = topic w.
Proof.
  cbv zeta.
  split; [by apply run_generate_failed|].
  split; [by apply append_nonempty|].
  split; [by apply append_nonempty|].
  split. { eexists. split; [reflexivity|]. by repeat split. }
  cbn [NotifierWorker.handler]. unfold NotifierWorker.process_record.
  cbn [record_of body Message JSON_parse bind].
  rewrite !run_bind, run_generate_failed by done.
  unfold NotifierWorker.fallback. rewrite run_send.
  cbn [own_property String.eqb Ascii.eqb Bool.eqb].
  rewrite run_call, perform_calm by done.
  cbn [sdk_effect]. eexists. split; [reflexivity|]. by cbn.
Qed.

Lemma notification_falls_back_witness :
  let w := shop "P-1" 10 order_P1 in
  let subject := "Order Confirmation #o-1" in
  let text :=
    "Thank you for your order! Your order for 2x P-1 ($100)"
      +:+ " has been received and is being processed." in
  let template := JsObject [("subject", JsString subject); ("body", JsString text)] in
  run (NotifierWorker.generateEmailContent order_P1) w
    = (Returned template, after_email_call w) ∧
  subject ≠ "" ∧ text ≠ "" ∧
  (∃ k, NotifierWorker.generateEmailContent order_P1
        = Vis (email_completion order_P1) k ∧
        (∀ err, k (inl err) = Ret template) ∧
        k (inr (mkAxiosResponse None)) = Ret template ∧
        (∀ raw, k (inr (mkAxiosResponse (Some (NotJson raw)))) = Ret template)) ∧
  ∃ w',
    run (NotifierWorker.handler (record_of order_P1 :: [])) w
      = run (NotifierWorker.handler []) w' ∧
    outbox w' = (outbox w ++ [mkEmail (JsString subject) (JsString text)])%list ∧
    orders w' = orders w ∧ inventory w' = inventory w ∧ topic w' = topic w.
Proof.
  apply (notification_falls_back order_P1 [] (shop "P-1" 10 order_P1)).
  - reflexivity.
  - apply calm_shop.
Defined.

(** ** Intake: validation *)


(** ** Inventory settlement: the status write *)

(** C10. The status write of the settlement worker is an unconditioned
    upsert: when the Orders table holds no record for the order of a processed
    event, the write creates one that holds orderId, status and updatedAt and
    nothing else (no customerId, productId, quantity, totalAmount or
    createdAt); the call does not fail and the handler goes on. *)
Theorem status_write_creates_partial_record
    (e : OrderEvent) (rest : list SQSRecord) (w : World)
    (Hw : calm w) (Habsent : orders w !! orderId e = None) :
  ∃ w' st new,
    run (handler (record_of e :: rest)) w = run (handler rest) w' ∧
    (st = "CONFIRMED" ∨ st = "FAILED_INSUFFICIENT_STOCK") ∧
    orders w' !! orderId e = Some new ∧
    new = {[ "orderId" := AttrS (orderId e); "status" := AttrS st;
             "updatedAt" := AttrS (next_time w) ]} ∧
    new !! "customerId" = None ∧ new !! "productId" = None ∧
    new !! "quantity" = None ∧ new !! "totalAmount" = None ∧
    new !! "createdAt" = None ∧
    ∀ status, ∃ w1,
      run (updateOrderStatus (orderId e) status) w = (Returned tt, w1) ∧
      orders w1 !! orderId e =
        Some {[ "orderId" := AttrS (orderId e); "status" := AttrS status;
                "updatedAt" := AttrS (next_time w) ]}.
Proof.
  destruct (run_handler_settles e rest w Hw) as (w' & Hrun & _ & Ho & _).
  exists w', (settlement_status (inventory w) e). eexists.
  split; [exact Hrun|]. split; [apply settlement_status_cases|].
  rewrite Ho, lookup_insert_eq, Habsent, status_item_fresh.
  split; [reflexivity|]. split; [reflexivity|].
  repeat (split; [reflexivity|]).
  intros status.
  destruct (run_updateOrderStatus (orderId e) status w Hw) as (w1 & -> & _ & Ho1 & _).
  exists w1. split; [done|].
  by rewrite Ho1, lookup_insert_eq, Habsent, status_item_fresh.
Qed.

Lemma status_write_creates_partial_record_witness :
  ∃ w' st new,
    run (handler [record_of order_P1]) (empty_orders (shop "P-1" 10 order_P1))
      = run (handler []) w' ∧
    (st = "CONFIRMED" ∨ st = "FAILED_INSUFFICIENT_STOCK") ∧
    orders w' !! "o-1" = Some new ∧
    new = {[ "orderId" := AttrS "o-1"; "status" := AttrS st;
             "updatedAt" := AttrS "2024-01-01T00:00:01Z" ]} ∧
    new !! "customerId" = None ∧ new !! "productId" = None ∧
    new !! "quantity" = None ∧ new !! "totalAmount" = None ∧
    new !! "createdAt" = None ∧
    ∀ status, ∃ w1,
      run (updateOrderStatus "o-1" status) (empty_orders (shop "P-1" 10 order_P1))
        = (Returned tt, w1) ∧
      orders w1 !! "o-1" =
        Some {[ "orderId" := AttrS "o-1"; "status" := AttrS status;
                "updatedAt" := AttrS "2024-01-01T00:00:01Z" ]}.
Proof.
  apply (status_write_creates_partial_record order_P1 []
           (empty_orders (shop "P-1" 10 order_P1))).
  - constructor.
  - reflexivity.
Defined.

(** * Part V. Further properties of the three handlers *)

(** ** Programs and their calls *)

Lemma all_calls_impl {A} (P Q : ∀ X, Call X → Prop) (p : Prog A) :
  (∀ X (c : Call X), P X c → Q X c) → all_calls P p → all_calls Q p.
Proof.
  intros HPQ. induction p as [a|e|X c k IH]; cbn; [done..|].
  intros [Hc Hk]. split; [by apply HPQ|]. intros r. by apply IH.
Qed.

Lemma all_calls_bind {A B} (P : ∀ X, Call X → Prop) (p : Prog A) (f : A → Prog B) :
  all_calls P p → (∀ a, all_calls P (f a)) → all_calls P (bind p f).
Proof.
  intros Hp Hf. induction p as [a|e|X c k IH]; cbn; [apply Hf|done|].
  destruct Hp as [Hc Hk]. split; [done|]. intros r. by apply IH.
Qed.

Lemma all_calls_try_catch {A} (P : ∀ X, Call X → Prop) (p : Prog A)
    (h : Error → Prog A) :
  all_calls P p → (∀ err, all_calls P (h err)) → all_calls P (try_catch p h).
Proof.
  intros Hp Hh. induction p as [a|e|X c k IH]; cbn; [done|apply Hh|].
  destruct Hp as [Hc Hk]. split; [done|]. intros r. by apply IH.
Qed.

Lemma all_calls_call {X} (P : ∀ X, Call X → Prop) (c : Call X) :
  P X c → all_calls P (call c).
Proof. intros Hc. cbn. split; [done|]. by intros [e|x]. Qed.

(** A relation between worlds that every permitted call respects holds
    between the start and the end of a run. *)
Lemma all_calls_run {A} (P : ∀ X, Call X → Prop) (R : World → World → Prop)
    (p : Prog A) :
  (∀ w, R w w) → (∀ a b c, R a b → R b c → R a c) →
  (∀ X (c : Call X) w r w', P X c → perform c w = (r, w') → R w w') →
  all_calls P p → ∀ w, R w (run p w).2.
Proof.
  intros Hrefl Htrans Hstep. induction p as [a|e|X c k IH]; cbn; [done..|].
  intros [Hc Hk] w. destruct (perform c w) as [r w1] eqn:Hrun.
  eapply Htrans; [by eapply Hstep|by apply IH].
Qed.

Lemma all_calls_sched_step (P : ∀ X, Call X → Prop) (R : World → World → Prop)
    (st : list (Prog unit) * World) (i : nat) :
  (∀ w, R w w) →
  (∀ X (c : Call X) w r w', P X c → perform c w = (r, w') → R w w') →
  Forall (all_calls P) st.1 →
  Forall (all_calls P) (sched_step st i).1 ∧ R st.2 (sched_step st i).2.
Proof.
  intros Hrefl Hstep. destruct st as [pool w]. cbn [fst snd]. intros Hpool.
  unfold sched_step. cbn [fst snd]. destruct (pool !! i) as [t|] eqn:Ht; [|done].
  pose proof (Forall_lookup_1 _ _ _ _ Hpool Ht) as Hsafe.
  destruct t as [a|e|X c k]; cbn [step_thread fst snd].
  - split; [|done]. by rewrite list_insert_id.
  - split; [|done]. by rewrite list_insert_id.
  - destruct Hsafe as [Hc Hk]. destruct (perform c w) as [r w'] eqn:Hrun.
    cbn [fst snd]. split; [by apply Forall_insert|]. by eapply Hstep.
Qed.

Lemma all_calls_run_sched (P : ∀ X, Call X → Prop) (R : World → World → Prop)
    (sched : list nat) (st : list (Prog unit) * World) :
  (∀ w, R w w) → (∀ a b c, R a b → R b c → R a c) →
  (∀ X (c : Call X) w r w', P X c → perform c w = (r, w') → R w w') →
  Forall (all_calls P) st.1 → R st.2 (run_sched sched st).2.
Proof.
  intros Hrefl Htrans Hstep. revert st.
  induction sched as [|i sched IH]; intros st Hpool; [done|].
  cbn [run_sched foldl].
  destruct (all_calls_sched_step P R st i Hrefl Hstep Hpool) as [H1 H2].
  eapply Htrans; [exact H2|]. by apply IH.
Qed.

Lemma perform_ok {X} (c : Call X) (w : World) (fs : list (option Error)) :
  is_sdk c = true → faults w = None :: fs → perform c w = sdk_effect c (tick w).
Proof.
  intros Hc Hf. destruct c; try discriminate; cbn [perform]; by rewrite Hf.
Qed.

Lemma perform_fault {X} (c : Call X) (w : World) (e : Error)
    (fs : list (option Error)) :
  is_sdk c = true → faults w = Some e :: fs → perform c w = (inl e, tick w).
Proof.
  intros Hc Hf. destruct c; try discriminate; cbn [perform]; by rewrite Hf.
Qed.

(** Rewrites the next SDK call, the entries of [faults] being known by [Hf]. *)
Ltac perform_next Hf :=
  match goal with
  | |- context [perform ?c ?w0] =>
      first
        [ rewrite (perform_ok c w0 _ eq_refl ltac:(cbn; rewrite Hf; reflexivity))
        | rewrite (perform_fault c w0 _ _ eq_refl
                     ltac:(cbn; rewrite Hf; reflexivity)) ]
  end.

(** ** The settlement worker: what it leaves alone *)

Lemma worker_calls_updateOrderStatus (ids : list string) (oid st : string) :
  oid ∈ ids → all_calls (@worker_call ids) (updateOrderStatus oid st).
Proof.
  intros Hin. apply all_calls_bind; [by apply all_calls_call|].
  intros ts. apply all_calls_call. cbn. split; [done|]. by eexists _, _.
Qed.

Lemma worker_calls_process_order (ids : list string) (e : OrderEvent) :
  orderId e ∈ ids → all_calls (@worker_call ids) (process_order e).
Proof.
  intros Hin. apply all_calls_try_catch.
  - apply all_calls_bind; [by apply all_calls_call|]. intros item. cbv zeta.
    destruct (_ <? _); [by apply worker_calls_updateOrderStatus|].
    apply all_calls_bind; [|intros _; by apply worker_calls_updateOrderStatus].
    apply all_calls_call. cbn. by eexists.
  - intros err. unfold on_error.
    destruct (String.eqb _ _); [by apply worker_calls_updateOrderStatus|done].
Qed.

Lemma worker_calls_handler (Records : list SQSRecord) :
  all_calls (@worker_call (orderId <$> batch_orders Records)) (handler Records).
Proof.
  induction Records as [|r rs IH]; [done|].
  cbn [handler]. apply all_calls_bind.
  - unfold process_record, batch_orders. cbn [omap list_omap]. unfold order_of.
    destruct (body r) as [raw|m]; [done|]. cbn [JSON_parse bind].
    destruct (Message m) as [raw|e]; [done|]. cbn [JSON_parse bind].
    apply worker_calls_process_order. cbn. apply list_elem_of_here.
  - intros _. eapply all_calls_impl; [|exact IH].
    intros X c. unfold batch_orders. cbn [omap list_omap].
    destruct (order_of r) as [e|]; [|done]. cbn [fmap list_fmap].
    destruct c; cbn; try done. destruct t; [|done]. destruct cond; [done|].
    intros [Hin Hacts]. split; [|done]. by apply list_elem_of_further.
Qed.

Lemma orders_frame_refl (ids : list string) (w : World) : orders_frame ids w w.
Proof. repeat split; try done. intros oid it H. by exists it. Qed.

Lemma orders_frame_trans (ids : list string) (a b c : World) :
  orders_frame ids a b → orders_frame ids b c → orders_frame ids a c.
Proof.
  intros (Ht1 & Hm1 & Ho1 & Hk1) (Ht2 & Hm2 & Ho2 & Hk2).
  split; [congruence|]. split; [congruence|]. split.
  - intros oid Hout. by rewrite Ho2, Ho1.
  - intros oid it Hit. destruct (Hk1 oid it Hit) as (it1 & Hit1 & Ha1).
    destruct (Hk2 oid it1 Hit1) as (it2 & Hit2 & Ha2).
    exists it2. split; [done|]. intros a0 H1 H2. by rewrite Ha2, Ha1.
Qed.

Lemma worker_call_orders_frame (ids : list string) {X} (c : Call X)
    (w w' : World) (r : Error + X) :
  worker_call ids c → perform c w = (r, w') → orders_frame ids w w'.
Proof.
  destruct c; cbn [worker_call]; try done.
  - (* GetItem *)
    intros _ [(e & -> & ->)| [= <- <-]]%perform_sdk_cases; [..|done];
      apply (orders_frame_refl ids w).
  - (* UpdateItem *)
    destruct t.
    + destruct cond; [done|]. intros (Hin & st & ts & ->).
      intros [(e & -> & ->)|Heff]%perform_sdk_cases; [|..|done];
        [apply (orders_frame_refl ids w)|].
      cbn [sdk_effect table tick orders] in Heff. rewrite update_status in Heff.
      injection Heff as <- <-. repeat split; try done.
      * intros oid Hout. cbn. rewrite lookup_insert_ne; [done|].
        intros ->. done.
      * intros oid it Hit. cbn. destruct (decide (k = oid)) as [->|Hne].
        -- rewrite lookup_insert_eq, Hit. eexists. split; [done|].
           intros a H1 H2. unfold status_item. cbn [default].
           by rewrite !lookup_insert_ne.
        -- rewrite lookup_insert_ne by done. by exists it.
    + intros (q & -> & ->).
      intros [(e & -> & ->)|Heff]%perform_sdk_cases; [|..|done];
        [apply (orders_frame_refl ids w)|].
      cbn [sdk_effect table tick inventory] in Heff.
      destruct (update_item _ _ _ _ _); injection Heff as <- <-;
        apply (orders_frame_refl ids w).
  - (* Date *)
    intros _ [= <- <-]. apply (orders_frame_refl ids w).
Qed.

Lemma inventory_kept_refl (tbl : TableData) : inventory_kept tbl tbl.
Proof. done. Qed.

Lemma inventory_kept_trans (a b c : TableData) :
  inventory_kept a b → inventory_kept b c → inventory_kept a c.
Proof.
  intros [Hn1 Ha1] [Hn2 Ha2]. split.
  - intros p. by rewrite Hn2, Hn1.
  - intros p a0 Hne. by rewrite Ha2, Ha1.
Qed.

Lemma inventory_kept_decremented (tbl : TableData) (p : string) (q : Z) :
  inventory_kept tbl (decremented tbl p q).
Proof.
  unfold decremented. destruct (tbl !! p) as [it|] eqn:Hit; [|done].
  destruct (it !! "stock") as [[s|n]|]; try done. split.
  - intros p'. destruct (decide (p = p')) as [<-|Hne].
    + by rewrite lookup_insert_eq, Hit.
    + by rewrite lookup_insert_ne.
  - intros p' a Hne. destruct (decide (p = p')) as [<-|Hp].
    + rewrite lookup_insert_eq, Hit. cbn [mbind option_bind].
      by rewrite lookup_insert_ne.
    + by rewrite lookup_insert_ne.
Qed.

Lemma inventory_safe_all_calls {A} (p : Prog A) :
  inventory_safe p → all_calls (@guarded) p.
Proof.
  induction p as [a|e|X c k IH]; cbn; [done..|].
  intros [Hc Hk]. split; [done|]. intros r. by apply IH.
Qed.

Lemma guarded_inventory_kept {X} (c : Call X) (w w' : World) (r : Error + X) :
  guarded c → perform c w = (r, w') → inventory_kept (inventory w) (inventory w').
Proof.
  intros Hc Hrun.
  destruct (perform_guarded c w w' r Hc Hrun) as [->|(p & q & _ & ->)];
    [done|apply inventory_kept_decremented].
Qed.

Lemma cannot_decrement_absent (tbl : TableData) (p : string) (q : Z) :
  tbl !! p = None → can_decrement tbl p q = false.
Proof. intros H. unfold can_decrement. by rewrite H. Qed.

Lemma can_decrement_number (tbl : TableData) (p : string) (it : Item) (n q : Z) :
  tbl !! p = Some it → it !! "stock" = Some (AttrN n) →
  can_decrement tbl p q = (q <=? n).
Proof. intros H1 H2. unfold can_decrement. rewrite H1. cbn. by rewrite H2. Qed.

Lemma stock_of_number (w : World) (p : string) (it : Item) (n : Z) :
  inventory w !! p = Some it → it !! "stock" = Some (AttrN n) → stock_of w p = n.
Proof.
  intros H1 H2. unfold stock_of, parseInt_stock. rewrite H1. cbn. by rewrite H2.
Qed.

Lemma status_of_written (w' : World) (tbl : TableData) (oid st ts : string)
    (cur : option Item) :
  orders w' = <[oid := status_item oid st ts cur]> tbl →
  status_of w' oid = Some (AttrS st).
Proof.
  intros H. unfold status_of. rewrite H, lookup_insert_eq. cbn [mbind option_bind].
  apply status_item_status.
Qed.

(** X1. A batch is processed record by record, in order, and stops at the
    first record that throws: the records before it keep their effects, the
    records after it are not processed; a record that is not JSON in the
    middle of a batch throws after the records before it have been settled. *)
Theorem batch_stops_at_first_failure (rs1 rs2 : list SQSRecord) (w : World) :
  run (handler (rs1 ++ rs2)) w =
    match run (handler rs1) w with
    | (Returned _, w') => run (handler rs2) w'
    | (Thrown err, w') => (Thrown err, w')
    end ∧
  ∀ raw,
    run (handler (rs1 ++ mkSQSRecord (NotJson raw) :: rs2)) w =
    match run (handler rs1) w with
    | (Returned _, w') => (Thrown SyntaxError, w')
    | (Thrown err, w') => (Thrown err, w')
    end.
Proof.
  assert (Happ : ∀ rs w0,
    run (handler (rs1 ++ rs)) w0 =
    match run (handler rs1) w0 with
    | (Returned _, w') => run (handler rs) w'
    | (Thrown err, w') => (Thrown err, w')
    end).
  { intros rs. induction rs1 as [|r rs1 IH]; intros w0; [done|].
    cbn [app handler]. rewrite !run_bind.
    destruct (run (process_record r) w0) as [[[]|err] w1]; [apply IH|done]. }
  split; [apply Happ|]. intros raw. rewrite Happ.
  by destruct (run (handler rs1) w) as [[[]|err] w'].
Qed.

(** X2. Whatever the batch and whatever calls fail, an invocation of the
    settlement worker publishes nothing and sends no mail, leaves every order
    that is not in its batch exactly as it was, deletes no order record, and
    changes no attribute of an existing order record other than status and
    updatedAt. *)
Theorem settlement_touches_only_status (Records : list SQSRecord) (w : World) :
  let w' := (run (handler Records) w).2 in
  topic w' = topic w ∧ outbox w' = outbox w ∧
  (∀ oid, oid ∉ orderId <$> batch_orders Records →
          orders w' !! oid = orders w !! oid) ∧
  (∀ oid it, orders w !! oid = Some it →
     ∃ it', orders w' !! oid = Some it' ∧
            ∀ a, a ≠ "status" → a ≠ "updatedAt" → it' !! a = it !! a).
Proof.
  apply (all_calls_run (@worker_call (orderId <$> batch_orders Records))
           (orders_frame (orderId <$> batch_orders Records))).
  - apply orders_frame_refl.
  - apply orders_frame_trans.
  - intros X c w0 r w1. apply worker_call_orders_frame.
  - apply worker_calls_handler.
Qed.

(** X3. Whatever the batches, the interleaving of the invocations and the
    calls that fail, the settlement worker creates no inventory item, deletes
    none, and changes no attribute of an item other than its stock. *)
Theorem settlement_keeps_inventory_items
    (batches : list (list SQSRecord)) (sched : list nat) (w : World) :
  let tbl := inventory w in
  let tbl' := inventory (run_sched sched (handler <$> batches, w)).2 in
  (∀ p, tbl' !! p = None ↔ tbl !! p = None) ∧
  (∀ p a, a ≠ "stock" →
     tbl' !! p ≫= (λ it : Item, it !! a) = tbl !! p ≫= (λ it : Item, it !! a)).
Proof.
  apply (all_calls_run_sched (@guarded)
           (λ a b, inventory_kept (inventory a) (inventory b)) sched
           (handler <$> batches, w)).
  - intros w0. apply inventory_kept_refl.
  - intros a b c. apply inventory_kept_trans.
  - intros X c w0 r w1. apply guarded_inventory_kept.
  - cbn [fst]. eapply Forall_impl; [apply handlers_inventory_safe|].
    intros t. apply inventory_safe_all_calls.
Qed.

(** X4. There is no rollback: when the read and the conditional decrement
    go through and the status write then fails with an error that is not a
    conditional check failure, the handler throws that error, the stock stays
    decremented and the order record is left as it was (so a retry of the
    event decrements again). *)
Theorem failed_status_write_keeps_decrement
    (e : OrderEvent) (rest : list SQSRecord) (w : World) (err : Error)
    (fs : list (option Error))
    (Hfaults : faults w = None :: None :: Some err :: fs)
    (Hname : err_name err ≠ "ConditionalCheckFailedException")
    (Hcan : can_decrement (inventory w) (productId e) (quantity e) = true) :
  ∃ w', run (handler (record_of e :: rest)) w = (Thrown err, w') ∧
    inventory w' = decremented (inventory w) (productId e) (quantity e) ∧
    stock_of w' (productId e) = stock_of w (productId e) - quantity e ∧
    orders w' = orders w ∧ faults w' = fs.
Proof.
  rewrite run_handler_cons. unfold process_order, settle.
  rewrite run_try_catch, run_bind, run_call. perform_next Hfaults.
  cbn [sdk_effect table tick inventory].
  rewrite (can_decrement_read _ _ _ Hcan).
  rewrite run_bind, run_call. perform_next Hfaults.
  cbn [sdk_effect table tick inventory]. rewrite update_decrement, Hcan.
  cbv beta iota. unfold updateOrderStatus.
  rewrite run_bind, run_call, perform_date. cbv beta iota.
  rewrite run_call. perform_next Hfaults.
  cbv beta iota. rewrite (on_error_rethrows e err Hname). cbn [run].
  eexists. split; [reflexivity|]. cbn.
  split; [done|]. split; [|by rewrite Hfaults].
  unfold stock_of. cbn. by apply stock_decremented.
Qed.

Lemma failed_status_write_keeps_decrement_witness :
  let err := mkError "ServiceUnavailable" in
  let w := with_faults [None; None; Some err] (shop "P-1" 10 order_P1) in
  ∃ w', run (handler (record_of order_P1 :: [])) w = (Thrown err, w') ∧
    inventory w' = decremented (inventory w) "P-1" 2 ∧
    stock_of w' "P-1" = stock_of w "P-1" - 2 ∧
    orders w' = orders w ∧ faults w' = [].
Proof.
  intros err w.
  apply (failed_status_write_keeps_decrement order_P1 [] w err []).
  - reflexivity.
  - vm_compute. discriminate.
  - vm_compute. reflexivity.
Defined.

(** X5. A product that has no inventory item: whatever the quantity (zero
    and negative ones included, for which the decrement is attempted and
    rejected), the order ends FAILED_INSUFFICIENT_STOCK, the handler goes on,
    and no item is created for the product. *)
Theorem absent_product_fails_order
    (e : OrderEvent) (rest : list SQSRecord) (w : World)
    (Hw : calm w) (Habsent : inventory w !! productId e = None) :
  ∃ w', run (handler (record_of e :: rest)) w = run (handler rest) w' ∧
    status_of w' (orderId e) = Some (AttrS "FAILED_INSUFFICIENT_STOCK") ∧
    inventory w' = inventory w ∧ inventory w' !! productId e = None.
Proof.
  destruct (run_handler_settles e rest w Hw) as (w' & Hrun & _ & Ho & Hi & _).
  unfold settlement_status, settlement_inventory in *.
  rewrite (cannot_decrement_absent _ _ (quantity e) Habsent) in Ho, Hi.
  exists w'. split; [done|]. split; [by eapply status_of_written|].
  split; [done|]. by rewrite Hi.
Qed.

Lemma absent_product_fails_order_witness :
  let e := mkOrderEvent "o-9" "CUST-9" "P-9" (-3) 10 "2024-01-01T00:00:00Z" in
  let w := shop "P-1" 10 e in
  ∃ w', run (handler (record_of e :: [])) w = run (handler []) w' ∧
    status_of w' (orderId e) = Some (AttrS "FAILED_INSUFFICIENT_STOCK") ∧
    inventory w' = inventory w ∧ inventory w' !! productId e = None.
Proof.
  intros e w. apply (absent_product_fails_order e [] w).
  - apply calm_shop.
  - reflexivity.
Defined.

(** X6. The worker does not look at the sign of the quantity: an event with
    a negative quantity, against an item whose stock is a non-negative
    number, is CONFIRMED and raises the stock by the absolute value of the
    quantity. *)
Theorem negative_quantity_raises_stock
    (e : OrderEvent) (rest : list SQSRecord) (w : World) (it : Item) (n : Z)
    (Hw : calm w)
    (Hitem : inventory w !! productId e = Some it)
    (Hstock : it !! "stock" = Some (AttrN n))
    (Hn : 0 ≤ n) (Hneg : quantity e < 0) :
  ∃ w', run (handler (record_of e :: rest)) w = run (handler rest) w' ∧
    status_of w' (orderId e) = Some (AttrS "CONFIRMED") ∧
    stock_of w' (productId e) = n + Z.abs (quantity e) ∧
    stock_of w (productId e) < stock_of w' (productId e).
Proof.
  destruct (run_handler_settles e rest w Hw) as (w' & Hrun & _ & Ho & Hi & _).
  assert (Hcan : can_decrement (inventory w) (productId e) (quantity e) = true).
  { rewrite (can_decrement_number _ _ it n) by done. lia. }
  unfold settlement_status, settlement_inventory in *. rewrite Hcan in Ho, Hi.
  exists w'. split; [done|]. split; [by eapply status_of_written|].
  assert (Hnew : stock_of w' (productId e) = n - quantity e).
  { unfold stock_of. rewrite Hi, stock_decremented by done.
    fold (stock_of w (productId e)). by rewrite (stock_of_number w _ it n). }
  rewrite Hnew, (stock_of_number w _ it n) by done. lia.
Qed.

Lemma negative_quantity_raises_stock_witness :
  let e := mkOrderEvent "o-7" "CUST-7" "P-1" (-5) 100 "2024-01-01T00:00:00Z" in
  let w := shop "P-1" 10 e in
  ∃ w', run (handler (record_of e :: [])) w = run (handler []) w' ∧
    status_of w' (orderId e) = Some (AttrS "CONFIRMED") ∧
    stock_of w' (productId e) = 10 + Z.abs (quantity e) ∧
    stock_of w (productId e) < stock_of w' (productId e).
Proof.
  intros e w.
  apply (negative_quantity_raises_stock e [] w (inventory_item "P-1" 10) 10).
  - apply calm_shop.
  - reflexivity.
  - reflexivity.
  - lia.
  - reflexivity.
Defined.

(** ** Order intake: every request, every world *)

(** The handler reads nothing of the event but its body, parsed. *)
Lemma handler_body (ev : OrderService.APIGatewayProxyEvent) (b : OrderRequest)
    (w : World) :
  OrderService.body_or_empty (OrderService.event_body ev) = IsJson b →
  run (OrderService.handler ev) w = run (OrderService.handler (request b)) w.
Proof.
  intros Hb. unfold OrderService.handler, request.
  cbn [OrderService.event_body OrderService.body_or_empty]. by rewrite Hb.
Qed.

Lemma handler_not_json (ev : OrderService.APIGatewayProxyEvent) (raw : string)
    (w : World) :
  OrderService.body_or_empty (OrderService.event_body ev) = NotJson raw →
  run (OrderService.handler ev) w = (Returned internal_error, w).
Proof. intros Hb. unfold OrderService.handler. by rewrite Hb. Qed.

(** The three ways the part after the fraud check can end. *)
Lemma persist_outcomes (b : OrderRequest) (w : World) :
  let id := next_uuid w in
  let ts := next_time w in
  let out := (run (persist_and_publish b) w).1 in
  let w' := (run (persist_and_publish b) w).2 in
  inventory w' = inventory w ∧ outbox w' = outbox w ∧
  ((∃ err, out = Thrown err ∧ orders w' = orders w ∧ topic w' = topic w) ∨
   (∃ err, out = Thrown err ∧ key_free (orders w) id ∧
           orders w' = <[id := order_item id b ts]> (orders w) ∧
           topic w' = topic w) ∨
   (out = Returned (created id) ∧ key_free (orders w) id ∧
    orders w' = <[id := order_item id b ts]> (orders w) ∧
    topic w' = (topic w ++ [mkPublished (order_event id b ts) "ORDER_CREATED"])%list)).
Proof.
  cbv zeta. unfold persist_and_publish.
  rewrite run_bind, run_call. cbn [perform]. cbv beta iota.
  rewrite run_bind, run_call. cbn [perform clock]. cbv beta iota.
  fold (next_uuid w) (next_time w).
  rewrite run_bind, run_call.
  destruct (perform (insert_order _ _ _) _) as [r1 w1] eqn:Hput.
  apply perform_sdk_cases in Hput as [(e & -> & ->)|Hput]; [|..|done].
  { cbn. split; [done|]. split; [done|]. left. by exists e. }
  unfold insert_order in Hput. cbn [sdk_effect table tick orders] in Hput.
  rewrite put_order in Hput.
  assert (Hcases :
    (r1 = inl ConditionalCheckFailedException ∧ orders w1 = orders w ∧
     topic w1 = topic w ∧ inventory w1 = inventory w ∧ outbox w1 = outbox w) ∨
    (r1 = inr tt ∧ key_free (orders w) (next_uuid w) ∧
     orders w1 = <[next_uuid w := order_item (next_uuid w) b (next_time w)]> (orders w) ∧
     topic w1 = topic w ∧ inventory w1 = inventory w ∧ outbox w1 = outbox w)).
  { unfold key_free. destruct (orders w !! next_uuid w) as [it|].
    - case_bool_decide; injection Hput as <- <-; [right|left]; by cbn.
    - injection Hput as <- <-. right. by cbn. }
  destruct Hcases as [(-> & Ho & Ht & Hi & Hm)|(-> & Hfree & Ho & Ht & Hi & Hm)].
  { cbn. split; [done|]. split; [done|]. left. by eexists. }
  cbv beta iota. rewrite run_bind, run_call.
  destruct (perform (PublishCommand _ _) w1) as [r2 w2] eqn:Hpub.
  apply perform_sdk_cases in Hpub as [(e & -> & ->)|Hpub]; [|..|done].
  { cbn. split; [done|]. split; [done|]. right. left. by exists e. }
  cbn [sdk_effect] in Hpub. injection Hpub as <- <-. cbn.
  split; [done|]. split; [done|]. right. right. by rewrite Ht.
Qed.

(** X7. The body of the request: an absent body and an empty body are read
    as the empty object and answered 400; a body that is not JSON is answered
    500; in all three cases no call is made and the world is untouched. *)
Theorem body_absent_empty_or_malformed (w : World) :
  run (OrderService.handler (OrderService.mkEvent None)) w
    = (Returned (OrderService.mkResult 400
         (OrderService.ErrorBody "Missing required fields")), w) ∧
  run (OrderService.handler (OrderService.mkEvent (Some (NotJson "")))) w
    = (Returned (OrderService.mkResult 400
         (OrderService.ErrorBody "Missing required fields")), w) ∧
  ∀ c raw,
    run (OrderService.handler
           (OrderService.mkEvent (Some (NotJson (String c raw))))) w
    = (Returned (OrderService.mkResult 500
         (OrderService.ErrorBody "Internal server error")), w).
Proof.
  split; [|split].
  - rewrite (handler_body _ (mkOrderRequest None None None None)) by done.
    by apply handler_invalid.
  - rewrite (handler_body _ (mkOrderRequest None None None None)) by done.
    by apply handler_invalid.
  - intros c raw. by apply (handler_not_json _ (String c raw)).
Qed.

(** X8. Whatever the request and whatever calls fail, the handler answers
    201, 400, 422 or 500.  It answers 201 only when the order is stored under
    the identifier it returns, with status PENDING and the fields of the
    request, and one ORDER_CREATED event with the same identifier, fields and
    timestamp has been published; with any other answer nothing is
    published. *)
Theorem created_means_stored_and_published
    (ev : OrderService.APIGatewayProxyEvent) (w : World) :
  ∃ res w', run (OrderService.handler ev) w = (Returned res, w') ∧
    (((OrderService.statusCode res = 400 ∨ OrderService.statusCode res = 422 ∨
       OrderService.statusCode res = 500) ∧ topic w' = topic w) ∨
     (∃ b id ts,
        OrderService.body_or_empty (OrderService.event_body ev) = IsJson b ∧
        res = created id ∧ OrderService.statusCode res = 201 ∧
        orders w' !! id = Some (order_item id b ts) ∧
        order_item id b ts !! "status" = Some (AttrS "PENDING") ∧
        topic w' = (topic w ++
          [mkPublished (order_event id b ts) "ORDER_CREATED"])%list)).
Proof.
  destruct (OrderService.body_or_empty (OrderService.event_body ev))
    as [raw|b] eqn:Hb.
  { rewrite (handler_not_json ev raw w Hb). eexists _, _. split; [done|].
    left. cbn. auto. }
  rewrite (handler_body ev b w Hb). destruct (valid b) eqn:Hv.
  2:{ rewrite handler_invalid by done. eexists _, _. split; [done|].
      left. cbn. auto. }
  rewrite handler_valid by done.
  destruct (gate (fraud_answer w)) as [|reason|].
  { eexists _, _. split; [done|]. left. cbn. auto. }
  { eexists _, _. split; [done|]. left. cbn. auto. }
  pose proof (persist_outcomes b (after_fraud_call w)) as H. cbv zeta in H.
  destruct (run (persist_and_publish b) (after_fraud_call w)) as [out w'].
  cbn [fst snd after_fraud_call topic orders] in H.
  destruct H as (_ & _ & [(err & -> & _ & Ht)|[(err & -> & _ & _ & Ht)
                                               |(-> & _ & Ho & Ht)]]).
  - eexists _, _. split; [done|]. left. cbn. auto.
  - eexists _, _. split; [done|]. left. cbn. auto.
  - eexists _, _. split; [done|]. right.
    exists b, (next_uuid (after_fraud_call w)), (next_time (after_fraud_call w)).
    repeat split; try done. rewrite Ho. apply lookup_insert_eq.
Qed.

Lemma persist_publish_fails (b : OrderRequest) (w : World) (err : Error)
    (fs : list (option Error)) :
  faults w = None :: Some err :: fs → orders w !! next_uuid w = None →
  ∃ w', run (persist_and_publish b) w = (Thrown err, w') ∧
    orders w' = <[next_uuid w := order_item (next_uuid w) b (next_time w)]> (orders w) ∧
    topic w' = topic w.
Proof.
  intros Hfaults Hfresh. unfold persist_and_publish.
  rewrite run_bind, run_call. cbn [perform]. cbv beta iota.
  rewrite run_bind, run_call. cbn [perform clock]. cbv beta iota.
  fold (next_uuid w) (next_time w).
  rewrite run_bind, run_call. unfold insert_order at 1. perform_next Hfaults.
  cbn [sdk_effect table tick orders]. rewrite put_order, Hfresh. cbv beta iota.
  rewrite run_bind, run_call. perform_next Hfaults. cbv beta iota.
  eexists. split; [reflexivity|]. by cbn.
Qed.

(** X9. A publish that fails after the put went through is answered 500 and
    is not compensated: the order stays stored, PENDING, and no event for it
    is on the topic. *)
Theorem failed_publish_leaves_order_stored
    (b : OrderRequest) (w : World) (err : Error) (fs : list (option Error))
    (Hv : valid b = true)
    (Hf : gate (fraud_answer w) = GatePasses)
    (Hfaults : faults w = None :: Some err :: fs)
    (Hfresh : orders w !! next_uuid w = None) :
  ∃ w', run (OrderService.handler (request b)) w = (Returned internal_error, w') ∧
    orders w' !! next_uuid w = Some (order_item (next_uuid w) b (next_time w)) ∧
    status_of w' (next_uuid w) = Some (AttrS "PENDING") ∧
    topic w' = topic w.
Proof.
  rewrite handler_valid by done. rewrite Hf.
  destruct (persist_publish_fails b (after_fraud_call w) err fs Hfaults Hfresh)
    as (w' & -> & Ho & Ht).
  change (next_uuid (after_fraud_call w)) with (next_uuid w) in Ho.
  change (next_time (after_fraud_call w)) with (next_time w) in Ho.
  cbn [after_fraud_call orders topic] in Ho, Ht.
  exists w'. split; [done|]. unfold status_of.
  rewrite Ho, lookup_insert_eq. by repeat split.
Qed.

Lemma failed_publish_leaves_order_stored_witness :
  let err := mkError "ServiceUnavailable" in
  let w := with_faults [None; Some err] (front [] ["id-1"]) in
  ∃ w', run (OrderService.handler (request request_P1)) w
          = (Returned internal_error, w') ∧
    orders w' !! next_uuid w
      = Some (order_item (next_uuid w) request_P1 (next_time w)) ∧
    status_of w' (next_uuid w) = Some (AttrS "PENDING") ∧
    topic w' = topic w.
Proof.
  intros err w.
  apply (failed_publish_leaves_order_stored request_P1 w err []); reflexivity.
Defined.

(** X10. The handler never overwrites or removes a stored order, whatever
    the request, the identifier drawn and the calls that fail, as long as
    every stored order carries its orderId; and it never touches the
    Inventory table or the outbox. *)
Theorem intake_keeps_stored_orders
    (ev : OrderService.APIGatewayProxyEvent) (w : World)
    (Hkeyed : orders_keyed w) :
  let w' := (run (OrderService.handler ev) w).2 in
  (∀ k it, orders w !! k = Some it → orders w' !! k = Some it) ∧
  inventory w' = inventory w ∧ outbox w' = outbox w.
Proof.
  cbv zeta.
  destruct (OrderService.body_or_empty (OrderService.event_body ev))
    as [raw|b] eqn:Hb.
  { by rewrite (handler_not_json ev raw w Hb). }
  rewrite (handler_body ev b w Hb). destruct (valid b) eqn:Hv.
  2:{ by rewrite handler_invalid. }
  rewrite handler_valid by done.
  destruct (gate (fraud_answer w)) as [|reason|]; [done..|].
  pose proof (persist_outcomes b (after_fraud_call w)) as H. cbv zeta in H.
  destruct (run (persist_and_publish b) (after_fraud_call w)) as [out w'].
  cbn [fst snd after_fraud_call topic orders inventory outbox] in H.
  destruct H as (Hi & Hm & H).
  assert (Hkeep : ∀ id item, key_free (orders w) id →
            ∀ k it, orders w !! k = Some it → <[id := item]> (orders w) !! k = Some it).
  { intros id item Hfree k it Hk. destruct (decide (id = k)) as [->|Hne].
    - unfold key_free in Hfree. rewrite Hk in Hfree. by destruct (Hkeyed k it Hk).
    - by rewrite lookup_insert_ne. }
  destruct H as [(err & -> & Ho & _)|[(err & -> & Hfree & Ho & _)
                                      |(-> & Hfree & Ho & _)]];
    cbn [snd]; rewrite Ho; (split; [|done]); try done; by apply Hkeep.
Qed.

Lemma intake_keeps_stored_orders_witness :
  let w := shop "P-1" 10 order_P1 in
  let w' := (run (OrderService.handler (request request_P1)) w).2 in
  (∀ k it, orders w !! k = Some it → orders w' !! k = Some it) ∧
  inventory w' = inventory w ∧ outbox w' = outbox w.
Proof.
  apply (intake_keeps_stored_orders (request request_P1) (shop "P-1" 10 order_P1)).
  intros k it Hk. unfold shop in Hk. cbn [orders] in Hk.
  apply lookup_singleton_Some in Hk as [_ <-]. vm_compute. discriminate.
Defined.

(** ** Intake followed by settlement *)

(** X11. Intake and settlement compose: the event published for an accepted
    order, once processed by the settlement worker, settles that very order.
    Its record keeps the fields written by intake (orderId, customerId,
    productId, quantity, totalAmount, createdAt), gains updatedAt, and has its
    status replaced by the one the stock decides; when the stock suffices the
    order is CONFIRMED and the stock goes down by the quantity of the
    request. *)
Theorem accepted_order_is_settled
    (b : OrderRequest) (w : World)
    (Hv : valid b = true)
    (Hf : gate (fraud_answer w) = GatePasses)
    (Hw : calm w)
    (Hfresh : orders w !! next_uuid w = None) :
  let id := next_uuid w in
  let ts := next_time w in
  let ev := order_event id b ts in
  ∃ w1 w2,
    run (OrderService.handler (request b)) w = (Returned (created id), w1) ∧
    topic w1 = (topic w ++ [mkPublished ev "ORDER_CREATED"])%list ∧
    run (handler [record_of ev]) w1 = (Returned tt, w2) ∧
    orders w2 !! id =
      Some (<["updatedAt" := AttrS (next_time w1)]>
              (<["status" := AttrS (settlement_status (inventory w) ev)]>
                 (order_item id b ts))) ∧
    inventory w2 = settlement_inventory (inventory w) ev ∧
    (if can_decrement (inventory w) (productId ev) (quantity ev)
     then status_of w2 id = Some (AttrS "CONFIRMED") ∧
          stock_of w2 (productId ev)
            = stock_of w (productId ev) - OrderService.num (req_quantity b)
     else status_of w2 id = Some (AttrS "FAILED_INSUFFICIENT_STOCK") ∧
          inventory w2 = inventory w).
Proof.
  cbv zeta.
  destruct (persist_fresh b (after_fraud_call w)) as
    (w1 & Hrun1 & Hw1 & Ho1 & Ht1 & Hi1 & _); [done..|].
  change (next_uuid (after_fraud_call w)) with (next_uuid w) in Hrun1, Ho1, Ht1.
  change (next_time (after_fraud_call w)) with (next_time w) in Ho1, Ht1.
  cbn [after_fraud_call orders topic inventory] in Ho1, Ht1, Hi1.
  set (ev := order_event (next_uuid w) b (next_time w)) in *.
  destruct (run_handler_settles ev [] w1 Hw1) as (w2 & Hrun2 & _ & Ho2 & Hi2 & _).
  change (orderId ev) with (next_uuid w) in Ho2.
  rewrite Ho1, lookup_insert_eq, Hi1 in Ho2. rewrite Hi1 in Hi2.
  exists w1, w2.
  split. { rewrite handler_valid by done. by rewrite Hf, Hrun1. }
  split; [done|]. split; [exact Hrun2|].
  split. { rewrite Ho2. apply lookup_insert_eq. }
  split; [done|].
  assert (Hst : status_of w2 (next_uuid w)
                = Some (AttrS (settlement_status (inventory w) ev))).
  { by eapply status_of_written. }
  rewrite Hst. unfold settlement_status, settlement_inventory, stock_of in *.
  destruct (can_decrement _ _ _) eqn:Hcan; (split; [done|]); [|done].
  rewrite Hi2. by apply stock_decremented.
Qed.

Lemma accepted_order_is_settled_witness :
  let b := request_P1 in
  let w := front [answer (verdict false "ok")] ["id-1"] in
  let id := next_uuid w in
  let ts := next_time w in
  let ev := order_event id b ts in
  ∃ w1 w2,
    run (OrderService.handler (request b)) w = (Returned (created id), w1) ∧
    topic w1 = (topic w ++ [mkPublished ev "ORDER_CREATED"])%list ∧
    run (handler [record_of ev]) w1 = (Returned tt, w2) ∧
    orders w2 !! id =
      Some (<["updatedAt" := AttrS (next_time w1)]>
              (<["status" := AttrS (settlement_status (inventory w) ev)]>
                 (order_item id b ts))) ∧
    inventory w2 = settlement_inventory (inventory w) ev ∧
    (if can_decrement (inventory w) (productId ev) (quantity ev)
     then status_of w2 id = Some (AttrS "CONFIRMED") ∧
          stock_of w2 (productId ev)
            = stock_of w (productId ev) - OrderService.num (req_quantity b)
     else status_of w2 id = Some (AttrS "FAILED_INSUFFICIENT_STOCK") ∧
          inventory w2 = inventory w).
Proof.
  apply (accepted_order_is_settled request_P1
           (front [answer (verdict false "ok")] ["id-1"]));
    try reflexivity.
  constructor.
Defined.

(** ** The notification worker *)

Lemma run_generate (order : OrderEvent) (w : World) :
  run (NotifierWorker.generateEmailContent order) w
  = (Returned (email_answer order w), after_email_call w).
Proof.
  unfold NotifierWorker.generateEmailContent, email_answer.
  rewrite run_try_catch, run_bind, run_call. cbn [perform].
  by destruct (head (email_api w)) as [[err|[[[raw|c]|]]]|].
Qed.

Lemma email_answer_parsed (order : OrderEvent) (w : World)
    (resp : AxiosResponse JsValue) (c : JsValue) :
  head (email_api w) = Some (inr resp) → content resp = Some (IsJson c) →
  email_answer order w = c.
Proof. intros H1 H2. unfold email_answer. by rewrite H1, H2. Qed.

Lemma email_answer_failed (order : OrderEvent) (w : World) :
  completion_failed (head (email_api w)) = true →
  email_answer order w = NotifierWorker.fallback order.
Proof.
  unfold completion_failed, email_answer.
  by destruct (head (email_api w)) as [[err|[[[raw|c]|]]]|].
Qed.

Lemma run_notify_cons (e : OrderEvent) (rest : list SQSRecord) (w : World) :
  run (NotifierWorker.handler (record_of e :: rest)) w =
  let c := email_answer e w in
  if readable c then
    match perform (SendEmailCommand (read c "subject") (read c "body"))
            (after_email_call w) with
    | (inr _, w2) => run (NotifierWorker.handler rest) w2
    | (inl err, w2) => (Thrown err, w2)
    end
  else (Thrown TypeError, after_email_call w).
Proof.
  cbn [NotifierWorker.handler]. unfold NotifierWorker.process_record.
  cbn [record_of body Message JSON_parse bind].
  rewrite !run_bind, run_generate, run_send. cbv zeta.
  destruct (email_answer e w) as [| |b|n|s|items|fields];
    cbn [readable read]; try done; rewrite run_call;
    by destruct (perform _ (after_email_call w)) as [[err|[]] w2].
Qed.

Lemma notifier_calls_handler (Records : list SQSRecord) :
  all_calls (@notifier_call) (NotifierWorker.handler Records).
Proof.
  induction Records as [|r rs IH]; [done|].
  cbn [NotifierWorker.handler]. apply all_calls_bind; [|done].
  unfold NotifierWorker.process_record.
  apply all_calls_bind; [by destruct (body r)|]. intros m.
  apply all_calls_bind; [by destruct (Message m)|]. intros e.
  apply all_calls_bind.
  - apply all_calls_try_catch; [|done].
    apply all_calls_bind; [by apply all_calls_call|]. intros resp.
    apply all_calls_bind.
    + unfold OrderService.message_content. by destruct (content resp).
    + intros j. by destruct j.
  - intros c. apply all_calls_try_catch; [|done].
    apply all_calls_bind; [by destruct c|]. intros subject.
    apply all_calls_bind; [by destruct c|]. intros text.
    by apply all_calls_call.
Qed.

Lemma only_mails_added_refl (w : World) : only_mails_added w w.
Proof. repeat split. exists []. by rewrite app_nil_r. Qed.

Lemma only_mails_added_trans (a b c : World) :
  only_mails_added a b → only_mails_added b c → only_mails_added a c.
Proof.
  intros (Ho1 & Hi1 & Ht1 & l1 & Hm1) (Ho2 & Hi2 & Ht2 & l2 & Hm2).
  repeat split; try congruence. exists (l1 ++ l2)%list.
  by rewrite Hm2, Hm1, app_assoc.
Qed.

Lemma notifier_call_only_mails {X} (c : Call X) (w w' : World) (r : Error + X) :
  notifier_call c → perform c w = (r, w') → only_mails_added w w'.
Proof.
  destruct c; cbn [notifier_call]; try done.
  - intros _ [(e & -> & ->)|[= <- <-]]%perform_sdk_cases; [| |done].
    + apply (only_mails_added_refl w).
    + repeat split. by eexists.
  - intros _ [= <- <-]. apply (only_mails_added_refl w).
Qed.

(** X12. Whatever the batch, the answers of the completion API and the
    calls that fail, the notification worker writes neither table and
    publishes nothing; the mails already handed to the transport stay, in
    order, and mails are only added after them. *)
Theorem notifier_never_writes_store (Records : list SQSRecord) (w : World) :
  let w' := (run (NotifierWorker.handler Records) w).2 in
  orders w' = orders w ∧ inventory w' = inventory w ∧ topic w' = topic w ∧
  ∃ sent, outbox w' = (outbox w ++ sent)%list.
Proof.
  apply (all_calls_run (@notifier_call) only_mails_added).
  - apply only_mails_added_refl.
  - apply only_mails_added_trans.
  - intros X c w0 r w1. apply notifier_call_only_mails.
  - apply notifier_calls_handler.
Qed.

(** X13. A send that fails is rethrown whatever the error and whatever the
    completion API answered, as long as the send is reached (the content is
    neither null nor undefined): the handler throws the error of the mail
    transport, no mail is recorded, and the rest of the batch is not
    processed. *)
Theorem failed_send_is_rethrown
    (e : OrderEvent) (rest : list SQSRecord) (w : World) (err : Error)
    (fs : list (option Error))
    (Hfaults : faults w = Some err :: fs)
    (Hreached : readable (email_answer e w) = true) :
  ∃ w', run (NotifierWorker.handler (record_of e :: rest)) w = (Thrown err, w') ∧
    outbox w' = outbox w ∧ faults w' = fs ∧
    email_api w' = tail (email_api w).
Proof.
  rewrite run_notify_cons. cbv zeta. rewrite Hreached.
  perform_next Hfaults. eexists. split; [reflexivity|]. cbn.
  by rewrite Hfaults.
Qed.

Lemma failed_send_is_rethrown_witness :
  let err := mkError "MessageRejected" in
  let w := with_faults [Some err] (shop "P-1" 10 order_P1) in
  ∃ w', run (NotifierWorker.handler (record_of order_P1 :: [record_of order_P3])) w
          = (Thrown err, w') ∧
    outbox w' = outbox w ∧ faults w' = [] ∧
    email_api w' = tail (email_api w).
Proof.
  intros err w.
  apply (failed_send_is_rethrown order_P1 [record_of order_P3] w err []);
    reflexivity.
Defined.

(** X14. With the completion API down for the whole batch and the mail
    transport up, every order of the batch gets its template mail: the handler
    returns, and the outbox grows by exactly one mail per record, in the order
    of the batch, each built from the template. *)
Theorem batch_falls_back_in_order (evs : list OrderEvent) (w : World)
    (Hw : calm w) (Hdown : email_api w = []) :
  ∃ w', run (NotifierWorker.handler (record_of <$> evs)) w = (Returned tt, w') ∧
    outbox w' = (outbox w ++ (fallback_mail <$> evs))%list.
Proof.
  revert w Hw Hdown. induction evs as [|e evs IH]; intros w Hw Hdown.
  { exists w. split; [done|]. by rewrite app_nil_r. }
  cbn [fmap list_fmap]. rewrite run_notify_cons.
  rewrite email_answer_failed by (by rewrite Hdown). cbv zeta.
  cbn [readable NotifierWorker.fallback].
  rewrite perform_calm by done. cbn [sdk_effect].
  match goal with |- context [run _ ?w1] =>
    destruct (IH w1) as (w' & -> & Hout) end.
  - by apply calm_tick in Hw.
  - cbn. by rewrite Hdown.
  - exists w'. split; [done|]. rewrite Hout. cbn. by rewrite <- app_assoc.
Qed.

Lemma batch_falls_back_in_order_witness :
  let w := shop "P-1" 10 order_P1 in
  ∃ w', run (NotifierWorker.handler (record_of <$> [order_P1; order_P3])) w
          = (Returned tt, w') ∧
    outbox w' = (outbox w ++ (fallback_mail <$> [order_P1; order_P3]))%list.
Proof.
  apply (batch_falls_back_in_order [order_P1; order_P3] (shop "P-1" 10 order_P1)).
  - apply calm_shop.
  - reflexivity.
Defined.

(** X15. When the completion parses (to a value that is neither null nor
    undefined), its subject and body are sent as they are, not the template,
    and nothing checks them: an empty subject or body in the completion is
    handed to the mail transport unchanged. *)
Theorem generated_content_is_sent_unchecked
    (e : OrderEvent) (rest : list SQSRecord) (w : World)
    (resp : AxiosResponse JsValue) (c : JsValue)
    (Hw : calm w)
    (Hanswer : head (email_api w) = Some (inr resp))
    (Hparsed : content resp = Some (IsJson c))
    (Hreadable : readable c = true) :
  ∃ w', run (NotifierWorker.handler (record_of e :: rest)) w
        = run (NotifierWorker.handler rest) w' ∧
    outbox w' = (outbox w ++ [mkEmail (read c "subject") (read c "body")])%list.
Proof.
  rewrite run_notify_cons, (email_answer_parsed e w resp c Hanswer Hparsed).
  cbv zeta. rewrite Hreadable.
  rewrite perform_calm by done. cbn [sdk_effect].
  eexists. split; [reflexivity|]. done.
Qed.

Lemma generated_content_is_sent_unchecked_witness :
  let c := JsObject [("subject", JsString ""); ("body", JsString "")] in
  let w := mkWorld ∅ ∅ [] [] [] [] [inr (mkAxiosResponse (Some (IsJson c)))] [] [] in
  ∃ w', run (NotifierWorker.handler (record_of order_P1 :: [])) w
        = run (NotifierWorker.handler []) w' ∧
    outbox w' = (outbox w ++ [mkEmail (JsString "") (JsString "")])%list.
Proof.
  intros c w.
  apply (generated_content_is_sent_unchecked order_P1 [] w
           (mkAxiosResponse (Some (IsJson c))) c).
  - constructor.
  - reflexivity.
  - reflexivity.
  - reflexivity.
Defined.

(** X16. The template subject tells orders apart: two events get the same
    template subject exactly when they have the same order id. *)
Theorem fallback_subject_identifies_order (e1 e2 : OrderEvent) :
  read (NotifierWorker.fallback e1) "subject"
  = read (NotifierWorker.fallback e2) "subject"
  ↔ orderId e1 = orderId e2.
Proof.
  unfold NotifierWorker.fallback. cbn. split.
  - intros H. by simplify_eq.
  - by intros ->.
Qed.

(** ** Concurrent settlements when the stock covers the whole demand *)

Lemma can_decrement_stock (tbl : TableData) (p : string) (q : Z) :
  has_stock_number tbl p → can_decrement tbl p q = (q <=? parseInt_stock (tbl !! p)).
Proof. intros [n Hn]. unfold can_decrement, parseInt_stock. by rewrite Hn. Qed.

Lemma decremented_has_stock_number (tbl : TableData) (p p' : string) (q : Z) :
  has_stock_number tbl p' → has_stock_number (decremented tbl p q) p'.
Proof.
  intros [n Hn]. unfold has_stock_number, decremented.
  destruct (tbl !! p) as [it|] eqn:Hit; [|by exists n].
  destruct (it !! "stock") as [[s|m]|] eqn:Hs; try by exists n.
  destruct (decide (p = p')) as [<-|Hne].
  - exists (m - q). rewrite lookup_insert_eq. cbn [mbind option_bind].
    by rewrite lookup_insert_eq.
  - exists n. by rewrite lookup_insert_ne.
Qed.

(** A step of an invocation that finds enough stock. *)
Lemma phase_step_sufficient (e : OrderEvent) (ph : phase) (w : World) :
  calm w → done_ok e ph w → no_fail ph →
  (taken e ph = 0 → can_decrement (inventory w) (productId e) (quantity e) = true) →
  ∃ ph' w',
    step_thread (prog_of e ph) w = (prog_of e ph', w') ∧
    no_fail ph' ∧ calm w' ∧ done_ok e ph' w' ∧
    (∀ oid, oid ≠ orderId e → orders w' !! oid = orders w !! oid) ∧
    (∀ p, stock_of w' p = stock_of w p - (taken_from p e ph' - taken_from p e ph)) ∧
    (∀ p, has_stock_number (inventory w) p → has_stock_number (inventory w') p).
Proof.
  intros Hw Hdone Hnf Hcan. pose proof (calm_tick w Hw) as Hw1.
  assert (Hsame : ∀ ph' w',
            inventory w' = inventory w → taken e ph' = taken e ph →
            ∀ p, stock_of w' p
                 = stock_of w p - (taken_from p e ph' - taken_from p e ph)).
  { intros ph' w' Hi Ht p. unfold stock_of, taken_from. rewrite Hi, Ht.
    destruct (bool_decide _); lia. }
  destruct ph; try done; cbn [prog_of].
  - (* AtRead *)
    cbn [handler process_record record_of body Message JSON_parse bind
           process_order settle try_catch call step_thread].
    rewrite perform_calm by done. cbn [sdk_effect table tick inventory].
    pose proof (can_decrement_read _ _ _ (Hcan eq_refl)) as Hlow.
    exists AtDecrement, (tick w). cbn [prog_of in_try bind try_catch].
    rewrite Hlow. split; [done|].
    repeat split; try done. by apply Hsame.
  - (* AtDecrement *)
    cbn [in_try call try_catch bind step_thread]. unfold decrement_stock.
    rewrite perform_calm by done. cbn [sdk_effect table tick inventory].
    rewrite update_decrement, (Hcan eq_refl).
    eexists ConfirmDate, _. split; [reflexivity|].
    repeat split; try done.
    + intros p. unfold stock_of, taken_from. cbn [taken set_table inventory tick].
      case_bool_decide as Hp.
      * subst p. rewrite stock_decremented by auto. lia.
      * rewrite stock_decremented_other by done. lia.
    + intros p. cbn. apply decremented_has_stock_number.
  - (* ConfirmDate *)
    eexists (ConfirmWrite (next_time w)), _. split; [reflexivity|].
    repeat split; try done. by apply Hsame.
  - (* ConfirmWrite *)
    cbn [in_try write_status call try_catch bind step_thread].
    rewrite perform_calm by done. cbn [sdk_effect table tick orders].
    rewrite update_status.
    eexists DoneConfirmed, _. split; [reflexivity|].
    split; [done|]. split; [done|].
    split; [apply (status_written _ _ _ (tick w))|].
    split. { intros oid Hne. cbn. by rewrite lookup_insert_ne. }
    split; [by apply Hsame|done].
  - exists DoneConfirmed, w. repeat split; try done. by apply Hsame.
Qed.

(** What a pool needs from a step of invocation [i] to stay in step with
    its phases. *)
Lemma pool_state_update (w0 : World) (evs : list OrderEvent) (phs : list phase)
    (pool : list (Prog unit)) (w w' : World) (i : nat) (e : OrderEvent)
    (ph ph' : phase) :
  NoDup (orderId <$> evs) → pool_state w0 evs phs (pool, w) →
  evs !! i = Some e → phs !! i = Some ph →
  calm w' → done_ok e ph' w' →
  (∀ oid, oid ≠ orderId e → orders w' !! oid = orders w !! oid) →
  (∀ p, stock_of w' p = stock_of w p - (taken_from p e ph' - taken_from p e ph)) →
  pool_state w0 evs (<[i := ph']> phs) (<[i := prog_of e ph']> pool, w').
Proof.
  intros Hnd (Hpool & Hw & Hdone & Hstock) He Hph Hw' Hdone' Hframe Hstock'.
  cbn [fst snd] in *. split; [|split; [done|split]]; cbn [fst snd].
  - rewrite Hpool, insert_zip_with. by rewrite (list_insert_id evs i e).
  - apply Forall2_same_length_lookup in Hdone as [Hlen Hdone].
    apply Forall2_same_length_lookup. split; [by rewrite length_insert|].
    intros j ej phj Hej Hphj. destruct (decide (i = j)) as [<-|Hne].
    + rewrite list_lookup_insert_eq in Hphj by (by eapply lookup_lt_Some).
      by simplify_eq.
    + rewrite list_lookup_insert_ne in Hphj by done.
      apply (done_ok_frame ej phj w); [|by eapply Hdone].
      apply Hframe. intros Heq. apply Hne.
      apply (NoDup_lookup (orderId <$> evs) i j (orderId e) Hnd);
        rewrite list_lookup_fmap; [by rewrite He | rewrite Hej; cbn; by f_equal].
  - intros p. rewrite Hstock', Hstock.
    rewrite (total_taken_insert p evs phs i e ph ph') by done. lia.
Qed.

(** What the others have taken leaves room for an invocation that has
    taken nothing yet. *)
Lemma total_taken_room (p : string) (evs : list OrderEvent) (phs : list phase)
    (i : nat) (e : OrderEvent) (ph : phase) :
  Forall (λ e, 0 ≤ quantity e) evs →
  evs !! i = Some e → phs !! i = Some ph → taken e ph = 0 →
  total_taken p evs phs + quantity e ≤ demand evs.
Proof.
  intros Hq. revert phs i.
  assert (Hle : ∀ evs phs, Forall (λ e, 0 ≤ quantity e) evs →
            total_taken p evs phs ≤ demand evs).
  { clear. unfold demand.
    induction evs as [|e0 evs IH]; intros phs Hq; [by destruct phs|].
    apply Forall_cons in Hq as [H0 Hq]. cbn [foldr].
    destruct phs as [|ph0 phs]; cbn [total_taken].
    - specialize (IH [] Hq). destruct evs; cbn [total_taken] in IH; lia.
    - specialize (IH phs Hq). unfold taken_from.
      destruct (bool_decide _), ph0; cbn [taken]; lia. }
  induction Hq as [|e0 evs H0 Hq IH]; intros [|ph0 phs] [|i]; try done.
  - intros [= ->] [= ->] Ht. specialize (Hle evs phs Hq). revert Hle.
    unfold demand. cbn [total_taken foldr]. unfold taken_from. rewrite Ht.
    destruct (bool_decide _); lia.
  - intros He Hph Ht. specialize (IH phs i He Hph Ht). revert IH.
    unfold demand. cbn [total_taken foldr]. unfold taken_from.
    destruct (bool_decide _), ph0; cbn [taken]; lia.
Qed.

Lemma sufficient_pool_step (w0 : World) (p : string) (evs : list OrderEvent)
    (phs : list phase) (st : list (Prog unit) * World) (i : nat) :
  NoDup (orderId <$> evs) →
  Forall (λ e, productId e = p) evs → Forall (λ e, 0 ≤ quantity e) evs →
  demand evs ≤ stock_of w0 p →
  pool_state w0 evs phs st → Forall no_fail phs →
  has_stock_number (inventory st.2) p →
  ∃ phs', pool_state w0 evs phs' (sched_step st i) ∧ Forall no_fail phs' ∧
          has_stock_number (inventory (sched_step st i).2) p.
Proof.
  intros Hnd Hp Hq Hdem Hst Hnf Hnum. destruct st as [pool w].
  unfold sched_step. cbn [fst snd] in *.
  destruct (pool !! i) as [t|] eqn:Ht; [|by exists phs].
  pose proof Hst as (Hpool & Hw & Hdone & Hstock). cbn [fst snd] in *.
  rewrite Hpool in Ht. apply lookup_zip_with_Some in Ht as (e & ph & -> & He & Hph).
  pose proof (Forall_lookup_1 _ _ _ _ Hp He) as Hpe. cbn in Hpe.
  destruct (phase_step_sufficient e ph w) as
    (ph' & w' & -> & Hnf' & Hw' & Hdone' & Hframe & Hstock' & Hnum').
  - done.
  - exact (Forall2_lookup_lr _ _ _ _ _ _ Hdone He Hph).
  - exact (Forall_lookup_1 _ _ _ _ Hnf Hph).
  - intros Ht. rewrite Hpe, can_decrement_stock by done.
    fold (stock_of w p). rewrite Hstock.
    pose proof (total_taken_room p evs phs i e ph Hq He Hph Ht). lia.
  - exists (<[i := ph']> phs). cbn [fst snd]. split; [|split].
    + by eapply pool_state_update.
    + by apply Forall_insert.
    + by apply Hnum'.
Qed.

Lemma total_taken_all_confirmed (p : string) (evs : list OrderEvent)
    (phs : list phase) :
  Forall (λ e, productId e = p) evs → Forall no_fail phs →
  length phs = length evs →
  forallb finished (zip_with prog_of evs phs) = true →
  total_taken p evs phs = demand evs ∧ Forall (λ ph, ph = DoneConfirmed) phs.
Proof.
  intros Hp. revert phs. induction Hp as [|e evs He Hp IH];
    intros [|ph phs] Hnf Hlen; try done.
  cbn [zip_with forallb]. intros [Hfin Hrest]%andb_true_iff.
  apply Forall_cons in Hnf as [Hnf0 Hnf].
  destruct (IH phs Hnf) as [Htot Hall]; [by injection Hlen|done|].
  destruct (finished_phase e ph Hfin) as [-> | ->]; [|done].
  split; [|by constructor]. cbn [total_taken demand foldr]. fold (demand evs).
  unfold taken_from. rewrite bool_decide_eq_true_2 by done. cbn. lia.
Qed.

Lemma sufficient_pool_run (w0 : World) (p : string) (evs : list OrderEvent)
    (sched : list nat) :
  NoDup (orderId <$> evs) →
  Forall (λ e, productId e = p) evs → Forall (λ e, 0 ≤ quantity e) evs →
  demand evs ≤ stock_of w0 p →
  ∀ phs st,
    pool_state w0 evs phs st → Forall no_fail phs →
    has_stock_number (inventory st.2) p →
    ∃ phs', pool_state w0 evs phs' (run_sched sched st) ∧ Forall no_fail phs'.
Proof.
  intros Hnd Hp Hq Hdem. induction sched as [|i sched IH];
    intros phs st Hst Hnf Hnum; [by exists phs|].
  cbn [run_sched foldl].
  destruct (sufficient_pool_step w0 p evs phs st i Hnd Hp Hq Hdem Hst Hnf Hnum)
    as (phs1 & Hst1 & Hnf1 & Hnum1).
  exact (IH phs1 _ Hst1 Hnf1 Hnum1).
Qed.

(** X17. Invocations of the inventory worker on pairwise distinct orders
    for one product, one record each, with quantities that are not negative
    and a stock that is a number and covers the sum of the quantities: when
    no call fails for its own reasons, then under every interleaving, once
    all invocations have finished, every order is CONFIRMED and the stock is
    the initial stock minus the sum of the quantities.  No order loses the
    race when the stock covers them all. *)
Theorem sufficient_stock_confirms_every_order
    (p : string) (evs : list OrderEvent) (sched : list nat) (w : World)
    (Hdistinct : NoDup (orderId <$> evs))
    (Hp : Forall (λ e, productId e = p) evs)
    (Hq : Forall (λ e, 0 ≤ quantity e) evs)
    (Hw : calm w)
    (Hnum : has_stock_number (inventory w) p)
    (Hdem : demand evs ≤ stock_of w p)
    (Hfin : forallb finished (run_sched sched (invocations evs, w)).1 = true) :
  Forall (λ e, status_of (run_sched sched (invocations evs, w)).2 (orderId e)
               = Some (AttrS "CONFIRMED")) evs ∧
  stock_of (run_sched sched (invocations evs, w)).2 p
  = stock_of w p - demand evs.
Proof.
  destruct (sufficient_pool_run w p evs sched Hdistinct Hp Hq Hdem
              (replicate (length evs) AtRead) (invocations evs, w)
              (pool_state_start w evs Hw))
    as (phs & (Hpool & _ & Hdone & Hstock) & Hnf).
  { apply Forall_replicate. exact I. }
  { exact Hnum. }
  rewrite Hpool in Hfin.
  destruct (total_taken_all_confirmed p evs phs Hp Hnf) as [Htot Hall];
    [symmetry; by eapply Forall2_length|done|].
  split; [|by rewrite Hstock, Htot].
  revert Hdone Hall. generalize (run_sched sched (invocations evs, w)).2.
  intros w' Hdone Hall. clear -Hdone Hall.
  induction Hdone as [|e ph es phs' Hd _ IH]; [done|].
  apply Forall_cons in Hall as [-> Hall]. constructor; [exact Hd|by apply IH].
Qed.

Lemma sufficient_stock_confirms_every_order_witness :
  let e1 := mkOrderEvent "o-a" "CUST-1" "P-2" 1 50 "2024-01-01T00:00:00Z" in
  let e2 := mkOrderEvent "o-b" "CUST-2" "P-2" 2 50 "2024-01-01T00:00:00Z" in
  let w := shop "P-2" 3 e1 in
  let sched := [0; 1; 0; 1; 0; 0; 1; 1]%nat in
  Forall (λ e, status_of (run_sched sched (invocations [e1; e2], w)).2 (orderId e)
               = Some (AttrS "CONFIRMED")) [e1; e2] ∧
  stock_of (run_sched sched (invocations [e1; e2], w)).2 "P-2"
  = stock_of w "P-2" - demand [e1; e2].
Proof.
  intros e1 e2 w sched.
  apply (sufficient_stock_confirms_every_order "P-2" [e1; e2] sched w).
  - refine (bool_decide_unpack (NoDup _) _). vm_compute. exact I.
  - repeat constructor.
  - repeat constructor; vm_compute; discriminate.
  - constructor.
  - exists 3. vm_compute. reflexivity.
  - vm_compute. discriminate.
  - vm_compute. reflexivity.
Defined.
